(** * klingon.models: translation store, read-through cache and fallback

    A shallow embedding of [klingon/models.py]: the [Translation] model and
    the [Translatable] mixin.  The ORM table and the cache are external
    collaborators of the module; they are modelled as a list of rows and a
    finite map, threaded through a small state-and-error monad. *)

From Stdlib Require Import Ascii.
From stdpp Require Import base numbers strings list gmap pretty sorting.

(** ** Python values *)

(** The values that travel through [get_translation]: whatever the cache
    hands back, the [translation] column, an attribute of the instance. *)
Inductive PyVal : Type :=
  | PNone
  | PBool (b : bool)
  | PInt (z : Z)
  | PStr (s : string).

Global Instance PyVal_eq_dec : EqDecision PyVal.
Proof. solve_decision. Defined.

(** [bool(v)]: [not v] in the source is [negb (truthy v)]. *)
Definition truthy (v : PyVal) : bool :=
  match v with
  | PNone => false
  | PBool b => b
  | PInt z => negb (z =? 0)%Z
  | PStr s => negb (String.eqb s EmptyString)
  end.

(** ** The [Translation] model *)

Record Translation : Type := mkTranslation {
  tr_pk : nat;                       (* implicit AutoField primary key *)
  tr_content_type : nat;             (* ForeignKey(ContentType) *)
  tr_object_id : Z;                  (* PositiveIntegerField *)
  tr_lang : string;                  (* CharField *)
  tr_field : string;                 (* CharField *)
  tr_translation : option string     (* TextField(blank=True, null=True) *)
}.

Global Instance Translation_eq_dec : EqDecision Translation.
Proof. solve_decision. Defined.

(** The column tuple of [Meta.unique_together]. *)
Definition unique_key (r : Translation) : nat * Z * string * string :=
  (tr_content_type r, tr_object_id r, tr_lang r, tr_field r).

(** [Meta.ordering = ['lang', 'field']]: the ORDER BY relation of every
    query set of the model; strings compare lexicographically. *)
Definition ordering (r1 r2 : Translation) : Prop :=
  tr_lang r1 ≠ tr_lang r2 ∧ (tr_lang r1 ≤ tr_lang r2)%string
  ∨ tr_lang r1 = tr_lang r2 ∧ (tr_field r1 ≤ tr_field r2)%string.

(** ** A [Translatable] model instance *)

Record Entity : Type := mkEntity {
  object_name : string;              (* self._meta.object_name *)
  content_type_id : nat;             (* ContentType.objects.get_for_model(self) *)
  id : Z;                            (* self.id, the primary key *)
  attrs : gmap string PyVal;         (* the other attributes of the instance *)
  translatable_fields : list string
}.

(** Attribute lookup on the instance: [None] is AttributeError. *)
Definition attribute (self : Entity) (name : string) : option PyVal :=
  if decide (name = "id") then Some (PInt (id self))
  else attrs self !! name.

(** [getattr(self, name, default)]. *)
Definition getattr (self : Entity) (name : string) (default : PyVal) : PyVal :=
  match attribute self name with
  | Some v => v
  | None => default
  end.

(** [getattr(trans_obj, 'translation', '')]: the attribute always exists
    on a model instance, NULL reads as [None]. *)
Definition getattr_translation (trans_obj : Translation) : PyVal :=
  match tr_translation trans_obj with
  | Some s => PStr s
  | None => PNone
  end.

(** ** Cache key *)

(** ['%s:%s:%s:%s' % (content_type, self.id, lang, field)] *)
Definition format_key (content_type : string) (id_ : Z) (lang field : string)
  : string :=
  content_type +:+ ":" +:+ pretty id_ +:+ ":" +:+ lang +:+ ":" +:+ field.

Definition _get_translation_cache_key (self : Entity) (lang field : string)
  : string :=
  let content_type := object_name self in
  format_key content_type (id self) lang field.

(** A string without the separator character. *)
Fixpoint no_colon (s : string) : bool :=
  match s with
  | EmptyString => true
  | String c s' => negb (Ascii.eqb c ":"%char) && no_colon s'
  end.

(** ** The world: table rows, cache entries, and the ORM calls issued *)

Inductive Error : Type :=
  | MultipleObjectsReturned.

Inductive Result (A : Type) : Type :=
  | Ok (a : A)
  | Raise (e : Error).
Global Arguments Ok {A} a.
Global Arguments Raise {A} e.

(** One entry per call on [Translation.objects] or [Model.save]. *)
Inductive Query : Type :=
  | QGetOrCreate (content_type : nat) (object_id : Z) (lang field : string)
  | QFilter (content_type : nat) (object_id : Z) (lang : string)
  | QSave (pk : nat).

Record World : Type := mkWorld {
  rows : list Translation;           (* the klingon_translation table *)
  cache : gmap string PyVal;         (* django.core.cache.cache *)
  queries : list Query               (* store calls issued so far *)
}.

Definition M (A : Type) : Type := World → Result (A * World).

Global Instance M_ret : MRet M := λ A a w, Ok (a, w).
Global Instance M_bind : MBind M := λ A B f m w,
  match m w with
  | Ok (a, w') => f a w'
  | Raise e => Raise e
  end.

Definition with_rows (rs : list Translation) (w : World) : World :=
  mkWorld rs (cache w) (queries w).
Definition with_cache (c : gmap string PyVal) (w : World) : World :=
  mkWorld (rows w) c (queries w).
Definition issue (q : Query) (w : World) : World :=
  mkWorld (rows w) (cache w) (queries w ++ [q]).

(** *** django.core.cache *)

(** [cache.get(key, default)] *)
Definition cache_get (key : string) (default : PyVal) : M PyVal := λ w,
  Ok (match cache w !! key with Some v => v | None => default end, w).

(** [cache.set(key, value)] *)
Definition cache_set (key : string) (value : PyVal) : M unit := λ w,
  Ok (tt, with_cache (<[key := value]> (cache w)) w).

(** *** Translation.objects *)

(** The WHERE clause of [get_or_create]: all four key columns. *)
Definition lookup_key (content_type : nat) (object_id : Z) (lang field : string)
    (r : Translation) : bool :=
  bool_decide (unique_key r = (content_type, object_id, lang, field)).

(** The WHERE clause of [translations]: object, type and language. *)
Definition lookup_lang (content_type : nat) (object_id : Z) (lang : string)
    (r : Translation) : bool :=
  bool_decide (tr_object_id r = object_id) &&
  bool_decide (tr_content_type r = content_type) &&
  bool_decide (tr_lang r = lang).

Definition select (p : Translation → bool) (rs : list Translation)
  : list Translation :=
  List.filter p rs.

(** The next value of the primary-key sequence. *)
Definition next_pk (rs : list Translation) : nat :=
  S (max_list (tr_pk <$> rs)).

(** [Translation.objects.get_or_create(object_id=.., content_type=..,
    field=.., lang=..)]: [get] first; on [DoesNotExist] insert a row whose
    [translation] takes the column default (NULL); more than one match is
    [MultipleObjectsReturned]. *)
Definition objects_get_or_create (object_id : Z) (content_type : nat)
    (field lang : string) : M (Translation * bool) := λ w,
  let w := issue (QGetOrCreate content_type object_id lang field) w in
  match select (lookup_key content_type object_id lang field) (rows w) with
  | [] =>
      let obj := mkTranslation (next_pk (rows w)) content_type object_id
                   lang field None in
      Ok ((obj, true), with_rows (rows w ++ [obj]) w)
  | [obj] => Ok ((obj, false), w)
  | _ :: _ :: _ => Raise MultipleObjectsReturned
  end.

Global Instance ordering_dec : RelDecision ordering.
Proof. intros r1 r2. unfold ordering. apply _. Defined.

(** [Translation.objects.filter(object_id=.., content_type=.., lang=..)],
    evaluated: the matching rows under [Meta.ordering]. *)
Definition objects_filter (object_id : Z) (content_type : nat) (lang : string)
  : M (list Translation) := λ w,
  let w := issue (QFilter content_type object_id lang) w in
  Ok (merge_sort ordering
        (select (lookup_lang content_type object_id lang) (rows w)), w).

(** UPDATE the row with the object's primary key, INSERT when there is
    none. *)
Definition update_or_insert (obj : Translation) (rs : list Translation)
  : list Translation :=
  if existsb (λ r, tr_pk r =? tr_pk obj)%nat rs
  then (λ r, if (tr_pk r =? tr_pk obj)%nat then obj else r) <$> rs
  else rs ++ [obj].

(** [obj.save()] *)
Definition save (obj : Translation) : M unit := λ w,
  let w := issue (QSave (tr_pk obj)) w in
  Ok (tt, with_rows (update_or_insert obj (rows w)) w).

(** A [for] loop that threads the loop-carried variable. *)
Fixpoint for_each {A B : Type} (xs : list A) (body : A → B → M B) (acc : B)
  : M B :=
  match xs with
  | [] => mret acc
  | x :: xs' => acc' ← body x acc; for_each xs' body acc'
  end.

(** ** The [Translatable] mixin *)

(** [translate]; [LANGUAGES] is [settings.LANGUAGES], pairs of a language
    code and its name. *)
Definition translate (LANGUAGES : list (string * string)) (self : Entity)
  : M (list Translation) :=
  for_each LANGUAGES (λ lang translations,
    for_each (translatable_fields self) (λ field translations,
      '(trans, created) ← objects_get_or_create (id self)
                            (content_type_id self) field (lang.1);
      mret (translations ++ [trans]))
    translations)
  [].

Definition translations (self : Entity) (lang : string)
  : M (list Translation) :=
  objects_filter (id self) (content_type_id self) lang.

Definition get_translation_obj (self : Entity) (lang field : string)
  : M Translation :=
  '(trans, created) ← objects_get_or_create (id self)
                        (content_type_id self) field lang;
  mret trans.

Definition get_translation (self : Entity) (lang field : string) : M PyVal :=
  (* Read from cache *)
  let key := _get_translation_cache_key self lang field in
  trans ← cache_get key (PStr EmptyString);
  if negb (truthy trans) then
    trans_obj ← get_translation_obj self lang field;
    let trans := getattr_translation trans_obj in
    (* if there's no translation text fall back to the model field *)
    let trans := if negb (truthy trans)
                 then getattr self field (PStr EmptyString) else trans in
    (* update cache *)
    _ ← cache_set key trans;
    mret trans
  else mret trans.

Definition set_translation (self : Entity) (lang field text : string)
  : M Translation :=
  trans_obj ← get_translation_obj self lang field;
  let trans_obj :=
    mkTranslation (tr_pk trans_obj) (tr_content_type trans_obj)
      (tr_object_id trans_obj) (tr_lang trans_obj) (tr_field trans_obj)
      (Some text) in
  _ ← save trans_obj;
  (* Update cache *)
  let key := _get_translation_cache_key self lang field in
  _ ← cache_set key (PStr text);
  mret trans_obj.

(** ** Vocabulary of the properties *)

(** The rows the table holds for the key of [(self, lang, field)]. *)
Definition stored (self : Entity) (lang field : string) (w : World)
  : list Translation :=
  select (lookup_key (content_type_id self) (id self) lang field) (rows w).

(** A row without translation text: NULL or the empty string. *)
Definition untranslated (r : Translation) : bool :=
  match tr_translation r with
  | None => true
  | Some s => String.eqb s EmptyString
  end.

(** No translation text is stored for [(self, lang, field)]: there is no
    row yet, or the one row is untranslated. *)
Definition no_stored_text (self : Entity) (lang field : string) (w : World)
  : bool :=
  match stored self lang field w with
  | [] => true
  | [r] => untranslated r
  | _ :: _ :: _ => false
  end.

(** [Meta.unique_together], as a property of the table. *)
Definition unique_together (rs : list Translation) : Prop :=
  ∀ content_type object_id lang field,
    length (select (lookup_key content_type object_id lang field) rs) ≤ 1.

(** Primary keys identify rows. *)
Definition pk_unique (rs : list Translation) : Prop :=
  NoDup (tr_pk <$> rs).

(** Ascending field names. *)
Definition by_field (r1 r2 : Translation) : Prop :=
  (tr_field r1 ≤ tr_field r2)%string.

(** The table is well formed: the unique constraint and the primary key. *)
Definition table_ok (rs : list Translation) : Prop :=
  unique_together rs ∧ pk_unique rs.

(** The (language code, field) pairs [translate] goes through, in order. *)
Definition translate_keys (LANGUAGES : list (string * string)) (self : Entity)
  : list (string * string) :=
  lang ← LANGUAGES; (λ field, (lang.1, field)) <$> translatable_fields self.

(** One turn of the inner loop of [translate]. *)
Definition visit (self : Entity) (k : string * string)
    (translations : list Translation) : M (list Translation) :=
  trans ← get_translation_obj self k.1 k.2;
  mret (translations ++ [trans]).

(** Two instances that stand for the same database object. *)
Definition same_object (e1 e2 : Entity) : Prop :=
  object_name e1 = object_name e2 ∧
  content_type_id e1 = content_type_id e2 ∧
  id e1 = id e2.

(** Calls of the mixin's API, for sequences of operations. *)
Inductive Op : Type :=
  | OpTranslate (LANGUAGES : list (string * string)) (self : Entity)
  | OpTranslations (self : Entity) (lang : string)
  | OpGetTranslationObj (self : Entity) (lang field : string)
  | OpGetTranslation (self : Entity) (lang field : string)
  | OpSetTranslation (self : Entity) (lang field text : string).

Definition run_op (op : Op) : M unit :=
  match op with
  | OpTranslate LANGUAGES self => _ ← translate LANGUAGES self; mret tt
  | OpTranslations self lang => _ ← translations self lang; mret tt
  | OpGetTranslationObj self lang field =>
      _ ← get_translation_obj self lang field; mret tt
  | OpGetTranslation self lang field =>
      _ ← get_translation self lang field; mret tt
  | OpSetTranslation self lang field text =>
      _ ← set_translation self lang field text; mret tt
  end.

Definition run (ops : list Op) : M unit :=
  for_each ops (λ op _, run_op op) tt.

(** ** The admin link *)

(** A row of [django_content_type], as [translations_link] reads it. *)
Record ContentType : Type := mkContentType {
  ct_id : nat;
  app_label : string;
  model : string
}.

(** The double quote character. *)
Definition dquote : string := String (ascii_of_nat 34) EmptyString.

(** [translations_link]; [reverse] is [urlresolvers.reverse] ([None] is
    NoReverseMatch) and [translation_type] is
    [ContentType.objects.get_for_model(Translation)].  The content type of
    [self] is read for its [id] only. *)
Definition translations_link (reverse : string → option string)
    (translation_type : ContentType) (self : Entity) : option string :=
  link ← reverse ("admin:" +:+ app_label translation_type +:+ "_"
                    +:+ model translation_type +:+ "_changelist");
  let link := link +:+ ("?content_type__id__exact="
                          +:+ pretty (content_type_id self)
                          +:+ "&object_id=" +:+ pretty (id self)) in
  Some ("<a href=" +:+ dquote +:+ link +:+ dquote +:+ ">translate</a>").

(** A string without the character [c]. *)
Fixpoint lacks (c : ascii) (s : string) : bool :=
  match s with
  | EmptyString => true
  | String c' s' => negb (Ascii.eqb c' c) && lacks c s'
  end.

(** ** More vocabulary *)

(** A row with translation text. *)
Definition translated (r : Translation) : bool := negb (untranslated r).

(** The operation that writes translation text. *)
Definition writes_text (op : Op) : bool :=
  match op with
  | OpSetTranslation _ _ _ _ => true
  | _ => false
  end.

(** [w'] has the rows of [w], untouched, followed by rows without text. *)
Definition extends_blank (w w' : World) : Prop :=
  ∃ new, rows w' = rows w ++ new ∧
         Forall (λ r, tr_translation r = None) new.

(** No row of [w] is gone or has changed key columns or primary key in
    [w']. *)
Definition keeps_rows (w w' : World) : Prop :=
  unique_key <$> rows w `prefix_of` unique_key <$> rows w' ∧
  tr_pk <$> rows w `prefix_of` tr_pk <$> rows w'.

(** The key columns [translate] asks for, in order. *)
Definition translate_unique_keys (LANGUAGES : list (string * string))
    (self : Entity) : list (nat * Z * string * string) :=
  (λ k, (content_type_id self, id self, k.1, k.2))
    <$> translate_keys LANGUAGES self.

(** ** Sample data *)

Definition admin_reverse (name : string) : option string :=
  if String.eqb name "admin:klingon_translation_changelist"
  then Some "/admin/klingon/translation/" else None.

Definition translation_type : ContentType :=
  mkContentType 3 "klingon" "translation".

(** A model of another app that is also called [Book]. *)
Definition library_book : Entity :=
  mkEntity "Book" 9 1 {["title" := PStr "Catalogue"]} ["title"].

Definition book (title : PyVal) : Entity :=
  mkEntity "Book" 7 1 {["title" := title]} ["title"; "body"].

Definition pamphlet : Entity :=
  mkEntity "Pamphlet" 8 1 ∅ ["title"].

Definition empty_world : World := mkWorld [] ∅ [].

(** * Properties *)

(** ** Cache key derivation *)

Section cache_key.

Local Abbreviation sep := (String ":"%char EmptyString).

Lemma no_colon_app s1 s2 :
  no_colon (s1 +:+ s2) = no_colon s1 && no_colon s2.
Proof.
  induction s1 as [|c s1 IH]; simpl; [done|].
  by rewrite IH, andb_assoc.
Qed.

Lemma pretty_N_char_no_colon x : Ascii.eqb (pretty_N_char x) ":"%char = false.
Proof. unfold pretty_N_char. by repeat case_match. Qed.

Lemma pretty_N_go_no_colon x s :
  no_colon s = true → no_colon (pretty_N_go x s) = true.
Proof.
  revert s. induction (N.lt_wf_0 x) as [x _ IH]; intros s Hs.
  assert (x = 0 ∨ 0 < x)%N as [->|Hpos] by lia.
  - by rewrite pretty_N_go_0.
  - rewrite pretty_N_go_step by done. apply IH.
    + by apply N.div_lt.
    + simpl. by rewrite pretty_N_char_no_colon, Hs.
Qed.

Lemma pretty_N_no_colon (x : N) : no_colon (pretty x) = true.
Proof.
  unfold pretty, pretty_N. case_decide; [done|].
  by apply pretty_N_go_no_colon.
Qed.

Lemma pretty_Z_no_colon (z : Z) : no_colon (pretty z) = true.
Proof.
  destruct z as [|p|p]; unfold pretty, pretty_Z; [done| |].
  - apply pretty_N_no_colon.
  - rewrite no_colon_app. simpl. apply pretty_N_no_colon.
Qed.

(** Reading up to the first separator is unambiguous when the prefix has
    none. *)
Lemma split_at_colon a a' b b' :
  no_colon a = true → no_colon a' = true →
  a +:+ sep +:+ b = a' +:+ sep +:+ b' → a = a' ∧ b = b'.
Proof.
  revert a'. induction a as [|c a IH]; intros [|c' a']; simpl.
  - intros _ _ [= Hb]. by simpl in Hb.
  - intros _ Hc' [= <- _]. by rewrite Ascii.eqb_refl in Hc'.
  - intros Hc _ [= -> _]. by rewrite Ascii.eqb_refl in Hc.
  - intros [_ Ha]%andb_prop [_ Ha']%andb_prop [= -> Heq].
    destruct (IH a' Ha Ha' Heq) as [-> ->]. done.
Qed.

End cache_key.

(** C3 (as stated): equal cache keys force equal (type name, id, language,
    field).  This fails: a separator inside the language or the field moves
    the boundary between the two components.  For the same object,
    language [en] with field [a:b] and language [en:a] with field [b]
    share one key. *)
Lemma cache_key_collision :
  _get_translation_cache_key (book PNone) "en" "a:b" = "Book:1:en:a:b" ∧
  _get_translation_cache_key (book PNone) "en:a" "b" = "Book:1:en:a:b" ∧
  ¬ (∀ (e1 e2 : Entity) (l1 f1 l2 f2 : string),
       _get_translation_cache_key e1 l1 f1 = _get_translation_cache_key e2 l2 f2 →
       object_name e1 = object_name e2 ∧ id e1 = id e2 ∧ l1 = l2 ∧ f1 = f2).
Proof.
  split_and!; [reflexivity..|].
  intros H.
  destruct (H (book PNone) (book PNone) "en" "a:b" "en:a" "b" eq_refl)
    as (_ & _ & Hl & _).
  discriminate Hl.
Qed.

(** C3 (amended): when neither type name nor language contains the
    separator [:], two cache keys are equal only if type name, id, language
    and field are all equal. *)
Theorem cache_key_injective (e1 e2 : Entity) (l1 f1 l2 f2 : string) :
  no_colon (object_name e1) = true → no_colon l1 = true →
  no_colon (object_name e2) = true → no_colon l2 = true →
  _get_translation_cache_key e1 l1 f1 = _get_translation_cache_key e2 l2 f2 →
  object_name e1 = object_name e2 ∧ id e1 = id e2 ∧ l1 = l2 ∧ f1 = f2.
Proof.
  unfold _get_translation_cache_key, format_key. intros Ht1 Hl1 Ht2 Hl2 Heq.
  apply split_at_colon in Heq as [Ht Heq]; [|done..].
  apply split_at_colon in Heq as [Hi Heq]; [|apply pretty_Z_no_colon..].
  apply split_at_colon in Heq as [Hl Hf]; [|done..].
  apply (inj pretty) in Hi. done.
Qed.

Lemma cache_key_injective_witness :
  object_name (book PNone) = object_name (book (PStr "Hello")) ∧
  id (book PNone) = id (book (PStr "Hello")) ∧ "fr" = "fr" ∧ "a:b" = "a:b".
Proof.
  apply (cache_key_injective (book PNone) (book (PStr "Hello"))
           "fr" "a:b" "fr" "a:b"); reflexivity.
Defined.

(** ** The read path *)

Section read_path.

Context (self : Entity) (lang field : string).

Local Abbreviation key := (_get_translation_cache_key self lang field).
Local Abbreviation q_get :=
  (QGetOrCreate (content_type_id self) (id self) lang field).
Local Abbreviation fresh_row w :=
  (mkTranslation (next_pk (rows w)) (content_type_id self) (id self)
     lang field None).

Lemma get_translation_obj_created w :
  stored self lang field w = [] →
  get_translation_obj self lang field w =
    Ok (fresh_row w,
        mkWorld (rows w ++ [fresh_row w]) (cache w) (queries w ++ [q_get])).
Proof.
  unfold stored, get_translation_obj, objects_get_or_create.
  unfold mbind, M_bind; simpl. by intros ->.
Qed.

Lemma get_translation_obj_found w r :
  stored self lang field w = [r] →
  get_translation_obj self lang field w = Ok (r, issue q_get w).
Proof.
  unfold stored, get_translation_obj, objects_get_or_create.
  unfold mbind, M_bind; simpl. by intros ->.
Qed.

Lemma get_translation_obj_raises w r1 r2 rs :
  stored self lang field w = r1 :: r2 :: rs →
  get_translation_obj self lang field w = Raise MultipleObjectsReturned.
Proof.
  unfold stored, get_translation_obj, objects_get_or_create.
  unfold mbind, M_bind; simpl. by intros ->.
Qed.

(** Cache hit: the cached value is returned and nothing else happens. *)
Lemma get_translation_hit w v :
  cache w !! key = Some v → truthy v = true →
  get_translation self lang field w = Ok (v, w).
Proof.
  intros Hc Hv. unfold get_translation, cache_get, mbind, M_bind.
  rewrite Hc, Hv. done.
Qed.

Lemma untranslated_falsy r :
  untranslated r = true → truthy (getattr_translation r) = false.
Proof.
  unfold untranslated, getattr_translation.
  destruct (tr_translation r); simpl; [by intros ->|done].
Qed.

(** Cache miss with no stored text: the attribute of the instance is the
    result, and it is what the cache holds afterwards. *)
Lemma get_translation_miss w :
  truthy (default (PStr EmptyString) (cache w !! key)) = false →
  no_stored_text self lang field w = true →
  ∃ rs',
    get_translation self lang field w =
      Ok (getattr self field (PStr EmptyString),
          mkWorld rs'
            (<[key := getattr self field (PStr EmptyString)]> (cache w))
            (queries w ++ [q_get]))
    ∧ (rs' = rows w ∨ rs' = rows w ++ [fresh_row w]).
Proof.
  intros Hc Hs. unfold no_stored_text in Hs.
  unfold get_translation, cache_get, mbind at 1, M_bind at 1.
  replace (match cache w !! key with Some v => v | None => PStr EmptyString end)
    with (default (PStr EmptyString) (cache w !! key))
    by (by destruct (cache w !! key)).
  rewrite Hc; simpl.
  destruct (stored self lang field w) as [|r [|r' rs]] eqn:Hst; [| |done].
  - exists (rows w ++ [fresh_row w]). split; [|by right].
    unfold mbind, M_bind.
    rewrite (get_translation_obj_created w Hst). done.
  - exists (rows w). split; [|by left].
    unfold mbind, M_bind.
    rewrite (get_translation_obj_found w r Hst).
    rewrite (untranslated_falsy r Hs). done.
Qed.

End read_path.

(** ** Fallback to the attribute of the instance *)

(** C1: the field attribute of the instance is a non-empty string, the
    cache has no entry for the key, and the table holds no translation text
    for (entity, lang, field) (no row, or one row with NULL or empty text):
    [get_translation] returns the attribute value. *)
Theorem get_translation_fallback
    (self : Entity) (lang field s : string) (w : World) :
  attribute self field = Some (PStr s) → s ≠ EmptyString →
  cache w !! _get_translation_cache_key self lang field = None →
  no_stored_text self lang field w = true →
  ∃ w', get_translation self lang field w = Ok (PStr s, w').
Proof.
  intros Hattr _ Hc Hs.
  destruct (get_translation_miss self lang field w) as (rs' & Hget & _);
    [by rewrite Hc|done|].
  rewrite Hget. unfold getattr. rewrite Hattr. eauto.
Qed.

Lemma get_translation_fallback_witness :
  ∃ w', get_translation (book (PStr "Hello")) "fr" "title" empty_world
        = Ok (PStr "Hello", w').
Proof.
  apply (get_translation_fallback (book (PStr "Hello")) "fr" "title" "Hello"
           empty_world); [reflexivity|discriminate|reflexivity|reflexivity].
Defined.

(** C9: the instance has no attribute named [field], the cache has no entry
    for the key and the table holds no translation text: [get_translation]
    raises nothing and returns the empty string. *)
Theorem get_translation_missing_attribute
    (self : Entity) (lang field : string) (w : World) :
  attribute self field = None →
  cache w !! _get_translation_cache_key self lang field = None →
  no_stored_text self lang field w = true →
  ∃ w', get_translation self lang field w = Ok (PStr EmptyString, w').
Proof.
  intros Hattr Hc Hs.
  destruct (get_translation_miss self lang field w) as (rs' & Hget & _);
    [by rewrite Hc|done|].
  rewrite Hget. unfold getattr. rewrite Hattr. eauto.
Qed.

Lemma get_translation_missing_attribute_witness :
  ∃ w', get_translation pamphlet "fr" "title" empty_world
        = Ok (PStr EmptyString, w').
Proof.
  apply (get_translation_missing_attribute pamphlet "fr" "title" empty_world);
    reflexivity.
Defined.

(** C10: on the fallback path the attribute value comes back as it is, not
    as a string: with no truthy cached value and no stored text, an
    attribute holding [v] (in particular [None]) makes [get_translation]
    return [v], and [v] is what the cache holds under the key afterwards. *)
Theorem get_translation_fallback_verbatim
    (self : Entity) (lang field : string) (v : PyVal) (w : World) :
  attribute self field = Some v →
  truthy (default (PStr EmptyString)
            (cache w !! _get_translation_cache_key self lang field)) = false →
  no_stored_text self lang field w = true →
  ∃ w', get_translation self lang field w = Ok (v, w') ∧
        cache w' !! _get_translation_cache_key self lang field = Some v.
Proof.
  intros Hattr Hc Hs.
  destruct (get_translation_miss self lang field w Hc Hs) as (rs' & Hget & _).
  rewrite Hget. unfold getattr. rewrite Hattr.
  eexists; split; [done|]. simpl. apply lookup_insert_eq.
Qed.

Lemma get_translation_fallback_verbatim_witness :
  ∃ w', get_translation (book PNone) "fr" "title" empty_world = Ok (PNone, w') ∧
        cache w' !! _get_translation_cache_key (book PNone) "fr" "title"
        = Some PNone.
Proof.
  apply (get_translation_fallback_verbatim (book PNone) "fr" "title" PNone
           empty_world); reflexivity.
Defined.

(** C6: with the same cache contents, a table whose row for the key was
    saved with empty text and a table with no row for the key give the same
    [get_translation] result; unless a truthy cached value answers first,
    that result is the fallback attribute in both. *)
Theorem empty_text_same_as_no_record
    (self : Entity) (lang field : string) (w1 w2 : World) (r : Translation) :
  cache w1 = cache w2 →
  stored self lang field w1 = [] →
  stored self lang field w2 = [r] →
  tr_translation r = Some EmptyString →
  ∃ v w1' w2',
    get_translation self lang field w1 = Ok (v, w1') ∧
    get_translation self lang field w2 = Ok (v, w2') ∧
    (truthy (default (PStr EmptyString)
               (cache w1 !! _get_translation_cache_key self lang field)) = false →
     v = getattr self field (PStr EmptyString)).
Proof.
  intros Hcache Hs1 Hs2 Hr.
  destruct (truthy (default (PStr EmptyString)
              (cache w1 !! _get_translation_cache_key self lang field)))
    eqn:Hc.
  - destruct (cache w1 !! _get_translation_cache_key self lang field)
      as [v|] eqn:Hv; [|done].
    exists v, w1, w2. split_and!; [| |done].
    + by apply get_translation_hit.
    + apply get_translation_hit; [by rewrite <-Hcache|done].
  - destruct (get_translation_miss self lang field w1) as (rs1 & Hg1 & _);
      [done|by unfold no_stored_text; rewrite Hs1|].
    destruct (get_translation_miss self lang field w2) as (rs2 & Hg2 & _);
      [by rewrite <-Hcache| |].
    { unfold no_stored_text, untranslated. by rewrite Hs2, Hr. }
    rewrite Hg1, Hg2. by eexists _, _, _.
Qed.

Lemma empty_text_same_as_no_record_witness :
  ∃ v w1' w2',
    get_translation (book (PStr "Hello")) "fr" "title" empty_world
      = Ok (v, w1') ∧
    get_translation (book (PStr "Hello")) "fr" "title"
      (mkWorld [mkTranslation 1 7 1 "fr" "title" (Some EmptyString)] ∅ [])
      = Ok (v, w2') ∧
    (truthy (default (PStr EmptyString)
               (cache empty_world
                  !! _get_translation_cache_key (book (PStr "Hello")) "fr" "title"))
       = false →
     v = getattr (book (PStr "Hello")) "title" (PStr EmptyString)).
Proof.
  apply (empty_text_same_as_no_record (book (PStr "Hello")) "fr" "title"
           empty_world
           (mkWorld [mkTranslation 1 7 1 "fr" "title" (Some EmptyString)] ∅ [])
           (mkTranslation 1 7 1 "fr" "title" (Some EmptyString)));
    reflexivity.
Defined.

(** ** Cache population and staleness *)

(** C7 (as stated): after a first call with no stored text, a second call
    on the same object returns the value of the first whatever the
    attribute has become.  This fails when the fallback of the first call
    is falsy: an empty cached value counts as a miss and is recomputed.
    With [title] empty the first call returns and caches the empty string;
    once [title] is [Hello] the second call returns [Hello]. *)
Lemma stale_fallback_refuted :
  (∃ w1 w2,
     get_translation (book (PStr EmptyString)) "fr" "title" empty_world
       = Ok (PStr EmptyString, w1) ∧
     cache w1 !! "Book:1:fr:title" = Some (PStr EmptyString) ∧
     get_translation (book (PStr "Hello")) "fr" "title" w1
       = Ok (PStr "Hello", w2)) ∧
  ¬ (∀ (e e' : Entity) (lang field : string) (w w1 : World) (v : PyVal),
       same_object e e' →
       cache w !! _get_translation_cache_key e lang field = None →
       no_stored_text e lang field w = true →
       get_translation e lang field w = Ok (v, w1) →
       cache w1 !! _get_translation_cache_key e lang field = Some v ∧
       ∃ w2, get_translation e' lang field w1 = Ok (v, w2)).
Proof.
  split.
  - eexists _, _. split_and!; [vm_compute; reflexivity..].
  - intros H.
    destruct (get_translation (book (PStr EmptyString)) "fr" "title" empty_world)
      as [[v w1]|err] eqn:Hget; [|by vm_compute in Hget].
    destruct (H (book (PStr EmptyString)) (book (PStr "Hello")) "fr" "title"
                empty_world w1 v) as [_ [w2 Hw2]];
      [done|reflexivity|reflexivity|exact Hget|].
    vm_compute in Hget. injection Hget as <- <-.
    vm_compute in Hw2. discriminate Hw2.
Qed.

(** C7 (amended): a first [get_translation] call with no truthy cached value
    and no stored text writes the fallback value into the cache under the
    derived key; when that value is truthy (a non-empty string, say), a
    second call on the same object returns it from the cache, whatever the
    attribute of the instance has become in between. *)
Theorem fallback_is_cached
    (e e' : Entity) (lang field : string) (w : World) :
  same_object e e' →
  truthy (default (PStr EmptyString)
            (cache w !! _get_translation_cache_key e lang field)) = false →
  no_stored_text e lang field w = true →
  ∃ w1,
    get_translation e lang field w
      = Ok (getattr e field (PStr EmptyString), w1) ∧
    cache w1 !! _get_translation_cache_key e lang field
      = Some (getattr e field (PStr EmptyString)) ∧
    (truthy (getattr e field (PStr EmptyString)) = true →
     get_translation e' lang field w1
       = Ok (getattr e field (PStr EmptyString), w1)).
Proof.
  intros (Hname & _ & Hid) Hc Hs.
  destruct (get_translation_miss e lang field w Hc Hs) as (rs' & Hget & _).
  eexists; split; [exact Hget|]. simpl. split.
  - apply lookup_insert_eq.
  - intros Hv. apply get_translation_hit; [|done]. simpl.
    unfold _get_translation_cache_key. rewrite <-Hname, <-Hid.
    apply lookup_insert_eq.
Qed.

Lemma fallback_is_cached_witness :
  ∃ w1,
    get_translation (book (PStr "Hello")) "fr" "title" empty_world
      = Ok (getattr (book (PStr "Hello")) "title" (PStr EmptyString), w1) ∧
    cache w1 !! _get_translation_cache_key (book (PStr "Hello")) "fr" "title"
      = Some (getattr (book (PStr "Hello")) "title" (PStr EmptyString)) ∧
    (truthy (getattr (book (PStr "Hello")) "title" (PStr EmptyString)) = true →
     get_translation (book (PStr "Changed")) "fr" "title" w1
       = Ok (getattr (book (PStr "Hello")) "title" (PStr EmptyString), w1)).
Proof.
  apply (fallback_is_cached (book (PStr "Hello")) (book (PStr "Changed"))
           "fr" "title" empty_world); [done|reflexivity|reflexivity].
Defined.

(** ** The write path *)

Lemma set_translation_returns
    (self : Entity) (lang field text : string) (w : World) :
  length (stored self lang field w) ≤ 1 →
  ∃ obj w1,
    set_translation self lang field text w = Ok (obj, w1) ∧
    cache w1
      = <[_get_translation_cache_key self lang field := PStr text]> (cache w) ∧
    queries w1
      = queries w
          ++ [QGetOrCreate (content_type_id self) (id self) lang field;
              QSave (tr_pk obj)] ∧
    tr_translation obj = Some text.
Proof.
  intros Hlen. unfold set_translation, mbind, M_bind.
  destruct (stored self lang field w) as [|r [|r' rs]] eqn:Hst;
    [| |simpl in Hlen; lia].
  - rewrite (get_translation_obj_created _ _ _ _ Hst).
    eexists _, _. split; [reflexivity|]. simpl.
    by rewrite <-app_assoc.
  - rewrite (get_translation_obj_found _ _ _ _ _ Hst).
    eexists _, _. split; [reflexivity|]. simpl.
    by rewrite <-app_assoc.
Qed.

(** C2: when the table holds at most one row for the key (as
    [unique_together] guarantees), [set_translation] with a non-empty text
    completes, and the next [get_translation] returns that text and leaves
    the world as it is: no row is touched and no store call (get_or_create,
    filter, save) is issued.  The answer comes from the cache alone: it is
    the same over any table contents. *)
Theorem set_then_get_from_cache
    (self : Entity) (lang field text : string) (w : World) :
  text ≠ EmptyString →
  length (stored self lang field w) ≤ 1 →
  ∃ obj w1,
    set_translation self lang field text w = Ok (obj, w1) ∧
    get_translation self lang field w1 = Ok (PStr text, w1) ∧
    ∀ rs qs,
      get_translation self lang field (mkWorld rs (cache w1) qs)
        = Ok (PStr text, mkWorld rs (cache w1) qs).
Proof.
  intros Htext Hlen.
  destruct (set_translation_returns self lang field text w Hlen)
    as (obj & w1 & Hset & Hcache & _).
  assert (truthy (PStr text) = true) as Htruthy.
  { simpl. destruct (String.eqb_spec text EmptyString); done. }
  exists obj, w1. split; [exact Hset|]. split.
  - apply get_translation_hit; [|done].
    rewrite Hcache. apply lookup_insert_eq.
  - intros rs qs. apply get_translation_hit; [|done].
    simpl. rewrite Hcache. apply lookup_insert_eq.
Qed.

Lemma set_then_get_from_cache_witness :
  ∃ obj w1,
    set_translation (book (PStr "Hello")) "fr" "title" "Bonjour" empty_world
      = Ok (obj, w1) ∧
    get_translation (book (PStr "Hello")) "fr" "title" w1
      = Ok (PStr "Bonjour", w1) ∧
    ∀ rs qs,
      get_translation (book (PStr "Hello")) "fr" "title"
        (mkWorld rs (cache w1) qs)
        = Ok (PStr "Bonjour", mkWorld rs (cache w1) qs).
Proof.
  apply (set_then_get_from_cache (book (PStr "Hello")) "fr" "title" "Bonjour"
           empty_world); [discriminate|simpl; lia].
Defined.

(** ** The table stays well formed *)

Section table_invariants.

Lemma select_app p rs1 rs2 :
  select p (rs1 ++ rs2) = select p rs1 ++ select p rs2.
Proof. apply List.filter_app. Qed.

Lemma lookup_key_true ct oid l f r :
  lookup_key ct oid l f r = true ↔ unique_key r = (ct, oid, l, f).
Proof. unfold lookup_key. apply bool_decide_eq_true. Qed.

Lemma elem_of_select p rs r : r ∈ select p rs ↔ r ∈ rs ∧ p r = true.
Proof. unfold select. rewrite !list_elem_of_In. apply List.filter_In. Qed.

Lemma next_pk_fresh rs : next_pk rs ∉ tr_pk <$> rs.
Proof. apply max_list_not_elem_of_gt. unfold next_pk. lia. Qed.

(** Rows that agree on the key columns have the same matches. *)
Lemma select_length_keys ct oid l f rs1 rs2 :
  unique_key <$> rs1 = unique_key <$> rs2 →
  length (select (lookup_key ct oid l f) rs1)
  = length (select (lookup_key ct oid l f) rs2).
Proof.
  unfold select.
  revert rs2. induction rs1 as [|r1 rs1 IH]; intros [|r2 rs2] Heq;
    try done.
  rewrite !fmap_cons in Heq. injection Heq as Hct Hoid Hl Hf Hrest.
  assert (lookup_key ct oid l f r1 = lookup_key ct oid l f r2) as Hk.
  { unfold lookup_key, unique_key. by rewrite Hct, Hoid, Hl, Hf. }
  simpl. rewrite Hk.
  destruct (lookup_key ct oid l f r2); simpl; by rewrite (IH rs2 Hrest).
Qed.

Lemma unique_together_keys rs1 rs2 :
  unique_key <$> rs1 = unique_key <$> rs2 →
  unique_together rs1 → unique_together rs2.
Proof.
  intros Heq Hu ct oid l f.
  rewrite <-(select_length_keys ct oid l f rs1 rs2 Heq). apply Hu.
Qed.

Lemma unique_together_insert rs pk ct oid l f t :
  select (lookup_key ct oid l f) rs = [] →
  unique_together rs →
  unique_together (rs ++ [mkTranslation pk ct oid l f t]).
Proof.
  intros Hnone Hu ct' oid' l' f'.
  rewrite select_app, length_app. unfold select at 2; simpl.
  destruct (lookup_key ct' oid' l' f' _) eqn:Hk; simpl.
  - apply lookup_key_true in Hk. unfold unique_key in Hk; simpl in Hk.
    injection Hk as <- <- <- <-. rewrite Hnone. simpl. lia.
  - specialize (Hu ct' oid' l' f'). lia.
Qed.

Lemma pk_unique_insert rs ct oid l f t :
  pk_unique rs →
  pk_unique (rs ++ [mkTranslation (next_pk rs) ct oid l f t]).
Proof.
  unfold pk_unique. intros Hnd. rewrite fmap_app. simpl.
  apply NoDup_app. split_and!; [done| |apply NoDup_singleton].
  intros x Hx ->%list_elem_of_singleton. by apply next_pk_fresh in Hx.
Qed.

Lemma pk_unique_inj rs r1 r2 :
  pk_unique rs → r1 ∈ rs → r2 ∈ rs → tr_pk r1 = tr_pk r2 → r1 = r2.
Proof.
  unfold pk_unique. induction rs as [|r rs IH]; simpl.
  - by intros _ ?%elem_of_nil.
  - intros [Hr Hnd]%NoDup_cons [->|H1]%elem_of_cons [->|H2]%elem_of_cons Hpk;
      [done| | |by apply IH].
    + destruct Hr. rewrite Hpk. by apply list_elem_of_fmap_2.
    + destruct Hr. rewrite <-Hpk. by apply list_elem_of_fmap_2.
Qed.

(** Saving an object that came from the table with only its text changed
    leaves key columns and primary keys as they are. *)
Lemma update_or_insert_columns obj r rs :
  pk_unique rs → r ∈ rs →
  tr_pk obj = tr_pk r → unique_key obj = unique_key r →
  unique_key <$> update_or_insert obj rs = unique_key <$> rs ∧
  tr_pk <$> update_or_insert obj rs = tr_pk <$> rs.
Proof.
  intros Hpk Hr Hobj Hkey. unfold update_or_insert.
  assert (existsb (λ r0, tr_pk r0 =? tr_pk obj) rs = true) as ->.
  { apply existsb_exists. exists r. split; [by apply list_elem_of_In|].
    apply Nat.eqb_eq. done. }
  rewrite <-!list_fmap_compose.
  split; apply list_fmap_ext; intros i r0 Hi; simpl;
    destruct (Nat.eqb_spec (tr_pk r0) (tr_pk obj)) as [Heq|]; try done.
  rewrite Hkey. f_equal. symmetry.
  apply (pk_unique_inj rs); [done|by eapply list_elem_of_lookup_2|done|].
  congruence.
Qed.

End table_invariants.

(** ** Loops *)

Section loops.

Context {A B : Type}.

Lemma for_each_app (xs ys : list A) (body : A → B → M B) acc w :
  for_each (xs ++ ys) body acc w =
    match for_each xs body acc w with
    | Ok (acc', w') => for_each ys body acc' w'
    | Raise e => Raise e
    end.
Proof.
  revert acc w. induction xs as [|x xs IH]; intros acc w; simpl; [done|].
  unfold mbind, M_bind. destruct (body x acc w) as [[acc' w']|e]; [|done].
  apply IH.
Qed.

Lemma for_each_ext (xs : list A) (body body' : A → B → M B) acc w :
  (∀ x acc w, body x acc w = body' x acc w) →
  for_each xs body acc w = for_each xs body' acc w.
Proof.
  intros Hext. revert acc w.
  induction xs as [|x xs IH]; intros acc w; simpl; [done|].
  unfold mbind, M_bind. rewrite Hext.
  destruct (body' x acc w) as [[acc' w']|e]; [|done]. apply IH.
Qed.

Lemma for_each_fmap {C} (g : C → A) (xs : list C) (body : A → B → M B) acc w :
  for_each (g <$> xs) body acc w = for_each xs (λ x, body (g x)) acc w.
Proof.
  revert acc w. induction xs as [|x xs IH]; intros acc w; simpl; [done|].
  unfold mbind, M_bind.
  destruct (body (g x) acc w) as [[acc' w']|e]; [|done]. apply IH.
Qed.

(** A loop whose every turn keeps [I] runs to its end and keeps [I]. *)
Lemma for_each_invariant (I : World → Prop) (xs : list A)
    (body : A → B → M B) :
  (∀ x acc w, I w → ∃ acc' w', body x acc w = Ok (acc', w') ∧ I w') →
  ∀ acc w, I w → ∃ acc' w', for_each xs body acc w = Ok (acc', w') ∧ I w'.
Proof.
  intros Hbody. induction xs as [|x xs IH]; intros acc w Hw; simpl.
  - by exists acc, w.
  - destruct (Hbody x acc w Hw) as (acc1 & w1 & Hx & Hw1).
    unfold mbind, M_bind. rewrite Hx. by apply IH.
Qed.

End loops.

Lemma translate_body_visit self code field (acc : list Translation) w :
  ('(trans, created) ← objects_get_or_create (id self)
                         (content_type_id self) field code;
   mret (acc ++ [trans])) w
  = visit self (code, field) acc w.
Proof.
  unfold visit, get_translation_obj, mbind, M_bind. simpl.
  by destruct (objects_get_or_create _ _ _ _ w) as [[[trans created] w']|e].
Qed.

Lemma translate_loop_visits LANGUAGES self acc w :
  for_each LANGUAGES (λ lang translations,
    for_each (translatable_fields self) (λ field translations,
      '(trans, created) ← objects_get_or_create (id self)
                            (content_type_id self) field (lang.1);
      mret (translations ++ [trans]))
    translations) acc w
  = for_each (translate_keys LANGUAGES self) (visit self) acc w.
Proof.
  unfold translate_keys.
  revert w acc. induction LANGUAGES as [|lang L IH]; intros w acc; [done|].
  cbn [for_each mbind list_bind]. rewrite for_each_app, for_each_fmap.
  unfold mbind at 1, M_bind at 1.
  rewrite (for_each_ext _ _ (λ field, visit self (lang.1, field)))
    by (intros; apply translate_body_visit).
  destruct (for_each (translatable_fields self) _ acc w) as [[acc' w']|e];
    [|done].
  apply IH.
Qed.

(** [translate] is one loop over its (language, field) pairs. *)
Lemma translate_visits LANGUAGES self w :
  translate LANGUAGES self w
  = for_each (translate_keys LANGUAGES self) (visit self) [] w.
Proof. apply translate_loop_visits. Qed.

(** ** get_or_create on a table with the unique constraint *)

Section get_or_create.

Context (self : Entity) (lang field : string).

Lemma stored_issue l f q w :
  stored self l f (issue q w) = stored self l f w.
Proof. done. Qed.

Lemma stored_elem w r :
  stored self lang field w = [r] →
  r ∈ rows w ∧ unique_key r = (content_type_id self, id self, lang, field).
Proof.
  intros Hst. rewrite <-lookup_key_true. apply elem_of_select.
  fold (stored self lang field w). rewrite Hst. by apply list_elem_of_singleton.
Qed.

(** The call returns; afterwards exactly its row is stored for the key,
    and every key that had a single row still has that row. *)
Lemma get_translation_obj_settles w :
  unique_together (rows w) →
  ∃ r w',
    get_translation_obj self lang field w = Ok (r, w') ∧
    unique_together (rows w') ∧
    cache w' = cache w ∧
    stored self lang field w' = [r] ∧
    (∀ l f r0, stored self l f w = [r0] → stored self l f w' = [r0]).
Proof.
  intros Hu.
  pose proof (Hu (content_type_id self) (id self) lang field) as Hlen.
  fold (stored self lang field w) in Hlen.
  destruct (stored self lang field w) as [|r [|r' rs]] eqn:Hst;
    [| |simpl in Hlen; lia].
  - eexists _, _. split; [by apply get_translation_obj_created|]. simpl.
    split_and!.
    + by apply unique_together_insert.
    + done.
    + unfold stored in *. cbn [rows]. rewrite select_app, Hst.
      unfold select; simpl.
      by rewrite (proj2 (lookup_key_true _ _ _ _ _)).
    + intros l f r0 Hr0. unfold stored in *. cbn [rows].
      rewrite select_app, Hr0. unfold select at 1; simpl.
      destruct (lookup_key _ _ l f _) eqn:Hk; [|done].
      apply lookup_key_true in Hk. unfold unique_key in Hk; simpl in Hk.
      injection Hk as <- <-. by rewrite Hst in Hr0.
  - exists r, (issue (QGetOrCreate (content_type_id self) (id self) lang field) w).
    split; [by apply get_translation_obj_found|]. done.
Qed.

Lemma get_translation_obj_table_ok w :
  table_ok (rows w) →
  ∃ r w',
    get_translation_obj self lang field w = Ok (r, w') ∧
    table_ok (rows w') ∧
    cache w' = cache w ∧
    r ∈ rows w' ∧
    unique_key r = (content_type_id self, id self, lang, field).
Proof.
  intros [Hu Hpk].
  pose proof (Hu (content_type_id self) (id self) lang field) as Hlen.
  fold (stored self lang field w) in Hlen.
  destruct (stored self lang field w) as [|r [|r' rs]] eqn:Hst;
    [| |simpl in Hlen; lia].
  - eexists _, _. split; [by apply get_translation_obj_created|]. simpl.
    split_and!; [|done| |done].
    + split; [by apply unique_together_insert|by apply pk_unique_insert].
    + apply elem_of_app. right. by apply list_elem_of_singleton.
  - exists r, (issue (QGetOrCreate (content_type_id self) (id self) lang field) w).
    split; [by apply get_translation_obj_found|].
    destruct (stored_elem w r Hst). done.
Qed.

End get_or_create.

(** ** Every operation keeps the table well formed *)

Lemma translate_table_ok LANGUAGES self w :
  table_ok (rows w) →
  ∃ ts w', translate LANGUAGES self w = Ok (ts, w') ∧ table_ok (rows w').
Proof.
  intros Hok. rewrite translate_visits.
  apply (for_each_invariant (λ w, table_ok (rows w))); [|done].
  intros [l f] acc w0 Hw0. unfold visit, mbind, M_bind; simpl.
  destruct (get_translation_obj_table_ok self l f w0 Hw0)
    as (r & w1 & -> & Hw1 & _).
  by eexists _, _.
Qed.

Lemma translations_table_ok self lang w :
  ∃ ts w', translations self lang w = Ok (ts, w') ∧ rows w' = rows w.
Proof. by eexists _, _. Qed.

Lemma get_translation_table_ok self lang field w :
  table_ok (rows w) →
  ∃ v w', get_translation self lang field w = Ok (v, w') ∧ table_ok (rows w').
Proof.
  intros Hok. unfold get_translation, cache_get, mbind at 1, M_bind at 1.
  destruct (negb (truthy _)); [|by eexists _, _].
  unfold mbind, M_bind.
  destruct (get_translation_obj_table_ok self lang field w Hok)
    as (r & w1 & -> & Hw1 & _).
  by eexists _, _.
Qed.

Lemma set_translation_table_ok self lang field text w :
  table_ok (rows w) →
  ∃ obj w',
    set_translation self lang field text w = Ok (obj, w') ∧ table_ok (rows w').
Proof.
  intros Hok. unfold set_translation, mbind, M_bind.
  destruct (get_translation_obj_table_ok self lang field w Hok)
    as (r & w1 & -> & [Hu Hpk] & _ & Hr & _).
  eexists _, _. split; [reflexivity|]. simpl.
  edestruct (update_or_insert_columns
               (mkTranslation (tr_pk r) (tr_content_type r) (tr_object_id r)
                  (tr_lang r) (tr_field r) (Some text)) r (rows w1))
    as [Hkeys Hpks]; [done..|].
  split.
  - by apply (unique_together_keys (rows w1)).
  - unfold pk_unique. by rewrite Hpks.
Qed.

Lemma run_op_table_ok op w :
  table_ok (rows w) →
  ∃ w', run_op op w = Ok (tt, w') ∧ table_ok (rows w').
Proof.
  intros Hok. destruct op as [L e|e l|e l f|e l f|e l f t]; simpl;
    unfold mbind, M_bind.
  - destruct (translate_table_ok L e w Hok) as (? & w' & -> & ?). by exists w'.
  - destruct (translations_table_ok e l w) as (? & w' & -> & Hrows).
    exists w'. by rewrite Hrows.
  - destruct (get_translation_obj_table_ok e l f w Hok) as (? & w' & -> & ? & _).
    by exists w'.
  - destruct (get_translation_table_ok e l f w Hok) as (? & w' & -> & ?).
    by exists w'.
  - destruct (set_translation_table_ok e l f t w Hok) as (? & w' & -> & ?).
    by exists w'.
Qed.

(** C4: starting from a well-formed table (the empty one, say), any sequence
    of [translate], [translations], [get_translation_obj], [get_translation]
    and [set_translation] calls, on any instances and arguments, runs to
    its end, and the table then holds at most one row per
    (content type, object id, language, field). *)
Theorem unique_after_any_sequence (ops : list Op) (w : World) :
  table_ok (rows w) →
  ∃ w', run ops w = Ok (tt, w') ∧
        ∀ content_type object_id lang field,
          length (select (lookup_key content_type object_id lang field)
                    (rows w')) ≤ 1.
Proof.
  intros Hok.
  destruct (for_each_invariant (λ w, table_ok (rows w)) ops
              (λ op _, run_op op)) with (acc := tt) (w := w)
    as ([] & w' & Hrun & [Hu _]); [|done|].
  - intros op [] w0 Hw0.
    destruct (run_op_table_ok op w0 Hw0) as (w1 & -> & Hw1). by exists tt, w1.
  - exists w'. split; [exact Hrun|apply Hu].
Qed.

Lemma unique_after_any_sequence_witness :
  ∃ w', run [OpTranslate [("en", "English"); ("fr", "French")]
               (book (PStr "Hello"));
             OpSetTranslation (book (PStr "Hello")) "fr" "title" "Bonjour";
             OpGetTranslation (book (PStr "Hello")) "de" "title";
             OpGetTranslationObj pamphlet "fr" "title";
             OpTranslate [("en", "English"); ("fr", "French")]
               (book (PStr "Hello"))]
          empty_world = Ok (tt, w') ∧
        ∀ content_type object_id lang field,
          length (select (lookup_key content_type object_id lang field)
                    (rows w')) ≤ 1.
Proof.
  apply (unique_after_any_sequence _ empty_world).
  split; [intros ct oid l f; simpl; lia|constructor].
Defined.

(** ** Idempotence of [translate] *)

Lemma for_each_visit_cons self l f ks acc w :
  for_each ((l, f) :: ks) (visit self) acc w =
    match get_translation_obj self l f w with
    | Ok (r, w') => for_each ks (visit self) (acc ++ [r]) w'
    | Raise e => Raise e
    end.
Proof.
  cbn [for_each]. unfold mbind, M_bind.
  change (visit self (l, f) acc w) with
    (match get_translation_obj self l f w with
     | Ok (r, w') => Ok (acc ++ [r], w')
     | Raise e => Raise e
     end).
  by destruct (get_translation_obj self l f w) as [[r w']|e].
Qed.

(** First pass: every visited key ends up with exactly the returned row. *)
Lemma visit_all_settles self ks :
  ∀ acc w,
    unique_together (rows w) →
    ∃ ts w1,
      for_each ks (visit self) acc w = Ok (acc ++ ts, w1) ∧
      unique_together (rows w1) ∧
      Forall2 (λ k r, stored self k.1 k.2 w1 = [r]) ks ts ∧
      (∀ l f r0, stored self l f w = [r0] → stored self l f w1 = [r0]).
Proof.
  induction ks as [|[l f] ks IH]; intros acc w Hu.
  - exists [], w. rewrite app_nil_r. by split_and!.
  - destruct (get_translation_obj_settles self l f w Hu)
      as (r & w0 & Hget & Hu0 & _ & Hst0 & Hkeep0).
    destruct (IH (acc ++ [r]) w0 Hu0) as (ts & w1 & Hrest & Hu1 & Hall & Hkeep1).
    exists (r :: ts), w1. split_and!.
    + rewrite for_each_visit_cons, Hget, Hrest. by rewrite <-app_assoc.
    + done.
    + constructor; [by apply Hkeep1|done].
    + intros l' f' r0 Hr0. by apply Hkeep1, Hkeep0.
Qed.

(** Second pass: every key already has its row, nothing is inserted. *)
Lemma visit_all_settled self ks ts :
  ∀ acc w,
    Forall2 (λ k r, stored self k.1 k.2 w = [r]) ks ts →
    ∃ w2,
      for_each ks (visit self) acc w = Ok (acc ++ ts, w2) ∧
      rows w2 = rows w ∧ cache w2 = cache w.
Proof.
  revert ts. induction ks as [|[l f] ks IH]; intros ts acc w Hall.
  - apply Forall2_nil_inv_l in Hall as ->. exists w. by rewrite app_nil_r.
  - apply Forall2_cons_inv_l in Hall as (r & ts' & Hr & Hall & ->).
    simpl in Hr.
    destruct (IH ts' (acc ++ [r])
                (issue (QGetOrCreate (content_type_id self) (id self) l f) w))
      as (w2 & Hrest & Hrows & Hcache); [done|].
    exists w2. split_and!; [|done..].
    rewrite for_each_visit_cons, (get_translation_obj_found self l f w r Hr).
    rewrite Hrest. by rewrite <-app_assoc.
Qed.

(** C5: on a table with the unique constraint, [translate] returns, and a
    second call with the same languages and fields returns the same
    records and leaves rows and cache as the first call left them: nothing
    is inserted and no text changes. *)
Theorem translate_idempotent
    (LANGUAGES : list (string * string)) (self : Entity) (w : World) :
  unique_together (rows w) →
  ∃ ts w1 w2,
    translate LANGUAGES self w = Ok (ts, w1) ∧
    translate LANGUAGES self w1 = Ok (ts, w2) ∧
    rows w2 = rows w1 ∧ cache w2 = cache w1.
Proof.
  intros Hu. rewrite translate_visits.
  destruct (visit_all_settles self (translate_keys LANGUAGES self) [] w Hu)
    as (ts & w1 & Hfirst & _ & Hall & _).
  destruct (visit_all_settled self (translate_keys LANGUAGES self) ts [] w1 Hall)
    as (w2 & Hsecond & Hrows & Hcache).
  exists ts, w1, w2. rewrite translate_visits. by split_and!.
Qed.

Lemma translate_idempotent_witness :
  ∃ ts w1 w2,
    translate [("en", "English"); ("fr", "French")] (book (PStr "Hello"))
      empty_world = Ok (ts, w1) ∧
    translate [("en", "English"); ("fr", "French")] (book (PStr "Hello"))
      w1 = Ok (ts, w2) ∧
    rows w2 = rows w1 ∧ cache w2 = cache w1.
Proof.
  apply (translate_idempotent _ (book (PStr "Hello")) empty_world).
  intros ct oid l f; simpl; lia.
Defined.

(** ** Listing the translations of a language *)

Section listing.

Lemma ordering_total : Total ordering.
Proof.
  intros r1 r2. unfold ordering.
  destruct (decide (tr_lang r1 = tr_lang r2)) as [Heq|Hne].
  - destruct (total String.le (tr_field r1) (tr_field r2)); auto.
  - destruct (total String.le (tr_lang r1) (tr_lang r2)); auto.
Qed.

Lemma ordering_trans : Transitive ordering.
Proof.
  intros r1 r2 r3. unfold ordering.
  intros [[Hne12 Hle12]|[Heq12 Hle12]] [[Hne23 Hle23]|[Heq23 Hle23]].
  - left. split; [|by etrans].
    intros Heq. rewrite <-Heq in Hle23.
    by apply Hne12, (anti_symm String.le).
  - left. by rewrite <-Heq23.
  - left. by rewrite Heq12.
  - right. split; [congruence|by etrans].
Qed.

(** Within one language, [Meta.ordering] is the order of field names. *)
Lemma ordering_one_lang lang rs :
  Forall (λ r, tr_lang r = lang) rs →
  StronglySorted ordering rs → StronglySorted by_field rs.
Proof.
  intros Hlang Hsorted. induction Hsorted as [|r rs Hrs IH Hr].
  - constructor.
  - apply Forall_cons in Hlang as [Hr_lang Hrs_lang].
    constructor; [by apply IH|].
    rewrite Forall_forall in Hr, Hrs_lang. apply Forall_forall.
    intros r' Hr'. destruct (Hr r' Hr') as [[Hne _]|[_ Hle]]; [|done].
    destruct Hne. by rewrite Hr_lang, (Hrs_lang r' Hr').
Qed.

Lemma lookup_lang_true ct oid lang r :
  lookup_lang ct oid lang r = true ↔
  tr_object_id r = oid ∧ tr_content_type r = ct ∧ tr_lang r = lang.
Proof.
  unfold lookup_lang. rewrite !andb_true_iff, !bool_decide_eq_true.
  tauto.
Qed.

End listing.

(** C8: [translations(lang)] never raises and inserts nothing; it returns
    exactly the rows of the instance (its content type and id) in that
    language, each as often as the table holds it, sorted by field name
    ascending; when there is none the result is the empty list. *)
Theorem translations_sorted_by_field
    (self : Entity) (lang : string) (w : World) :
  ∃ ts w',
    translations self lang w = Ok (ts, w') ∧
    rows w' = rows w ∧
    ts ≡ₚ select (lookup_lang (content_type_id self) (id self) lang) (rows w) ∧
    (∀ r, r ∈ ts ↔
          r ∈ rows w ∧ tr_object_id r = id self ∧
          tr_content_type r = content_type_id self ∧ tr_lang r = lang) ∧
    StronglySorted by_field ts ∧
    (select (lookup_lang (content_type_id self) (id self) lang) (rows w) = [] →
     ts = []).
Proof.
  eexists _, _. split; [reflexivity|]. simpl.
  set (found := select _ (rows w)).
  pose proof (merge_sort_Permutation ordering found) as Hperm.
  assert (∀ r, r ∈ merge_sort ordering found ↔
               r ∈ rows w ∧ tr_object_id r = id self ∧
               tr_content_type r = content_type_id self ∧ tr_lang r = lang)
    as Helem.
  { intros r. rewrite Hperm. unfold found.
    by rewrite elem_of_select, lookup_lang_true. }
  split_and!; [done|done|done| |].
  - apply (ordering_one_lang lang).
    + apply Forall_forall. intros r Hr. by apply Helem in Hr as (_ & _ & _ & ?).
    + apply (@StronglySorted_merge_sort _ ordering _ ordering_trans
               ordering_total).
  - subst found. by intros ->.
Qed.

(** * More of the module *)

(** ** What [get_or_create] can do *)

Lemma get_translation_obj_inv self lang field w r w1 :
  get_translation_obj self lang field w = Ok (r, w1) →
  cache w1 = cache w ∧
  queries w1
    = queries w ++ [QGetOrCreate (content_type_id self) (id self) lang field] ∧
  (stored self lang field w = [] ∧
   r = mkTranslation (next_pk (rows w)) (content_type_id self) (id self)
         lang field None ∧
   rows w1 = rows w ++ [r]
   ∨ stored self lang field w = [r] ∧ rows w1 = rows w).
Proof.
  destruct (stored self lang field w) as [|r0 [|r1 rs]] eqn:Hst.
  - rewrite (get_translation_obj_created _ _ _ _ Hst). intros [= <- <-].
    simpl. split_and!; [done..|]. by left.
  - rewrite (get_translation_obj_found _ _ _ _ _ Hst). intros [= <- <-].
    simpl. split_and!; [done..|]. by right.
  - by rewrite (get_translation_obj_raises _ _ _ _ _ _ _ Hst).
Qed.

Lemma get_translation_obj_raises_iff self lang field w :
  get_translation_obj self lang field w = Raise MultipleObjectsReturned ↔
  2 ≤ length (stored self lang field w).
Proof.
  destruct (stored self lang field w) as [|r0 [|r1 rs]] eqn:Hst; simpl.
  - rewrite (get_translation_obj_created _ _ _ _ Hst). split; [done|lia].
  - rewrite (get_translation_obj_found _ _ _ _ _ Hst). split; [done|lia].
  - rewrite (get_translation_obj_raises _ _ _ _ _ _ _ Hst). split; [lia|done].
Qed.

(** ** More on the read path *)

(** X1: stored text wins over the attribute.  On a cache miss (no entry, or
    a falsy one) with a single row holding non-empty text, [get_translation]
    returns that text whatever the instance's own attribute is, writes it
    to the cache under the key, leaves the table alone and issues exactly
    one [get_or_create]. *)
Theorem get_translation_stored_text
    (self : Entity) (lang field s : string) (r : Translation) (w : World) :
  truthy (default (PStr EmptyString)
            (cache w !! _get_translation_cache_key self lang field)) = false →
  stored self lang field w = [r] →
  tr_translation r = Some s → s ≠ EmptyString →
  get_translation self lang field w =
    Ok (PStr s,
        mkWorld (rows w)
          (<[_get_translation_cache_key self lang field := PStr s]> (cache w))
          (queries w
             ++ [QGetOrCreate (content_type_id self) (id self) lang field])).
Proof.
  intros Hc Hst Hr Hs.
  unfold get_translation, cache_get, mbind at 1, M_bind at 1.
  replace (match cache w !! _get_translation_cache_key self lang field with
           | Some v => v | None => PStr EmptyString end)
    with (default (PStr EmptyString)
            (cache w !! _get_translation_cache_key self lang field))
    by (by destruct (cache w !! _)).
  rewrite Hc. simpl. unfold mbind, M_bind.
  rewrite (get_translation_obj_found _ _ _ _ _ Hst).
  unfold getattr_translation. rewrite Hr. simpl.
  destruct (String.eqb_spec s EmptyString) as [|_]; [done|]. done.
Qed.

Lemma get_translation_stored_text_witness :
  get_translation (book (PStr "Hello")) "fr" "title"
    (mkWorld [mkTranslation 1 7 1 "fr" "title" (Some "Bonjour")] ∅ []) =
    Ok (PStr "Bonjour",
        mkWorld [mkTranslation 1 7 1 "fr" "title" (Some "Bonjour")]
          (<[_get_translation_cache_key (book (PStr "Hello")) "fr" "title"
               := PStr "Bonjour"]> ∅)
          ([] ++ [QGetOrCreate 7 1 "fr" "title"])).
Proof.
  apply (get_translation_stored_text (book (PStr "Hello")) "fr" "title"
           "Bonjour" (mkTranslation 1 7 1 "fr" "title" (Some "Bonjour")));
    [reflexivity|reflexivity|reflexivity|discriminate].
Defined.

(** X2: whenever [get_translation] returns, the cache holds the returned
    value under the derived key, and every other cache entry is as it was
    before the call. *)
Theorem get_translation_leaves_value_cached
    (self : Entity) (lang field : string) (w w' : World) (v : PyVal) :
  get_translation self lang field w = Ok (v, w') →
  cache w' !! _get_translation_cache_key self lang field = Some v ∧
  ∀ k, k ≠ _get_translation_cache_key self lang field →
       cache w' !! k = cache w !! k.
Proof.
  unfold get_translation, cache_get, mbind at 1, M_bind at 1.
  destruct (cache w !! _get_translation_cache_key self lang field)
    as [c|] eqn:Hc; simpl.
  - destruct (truthy c) eqn:Htruthy; simpl.
    + intros [= <- <-]. done.
    + unfold mbind, M_bind.
      destruct (get_translation_obj self lang field w) as [[r w1]|e] eqn:Hobj;
        [|done].
      apply get_translation_obj_inv in Hobj as (Hcache & _).
      intros [= <- <-]. simpl. rewrite Hcache. split.
      * apply lookup_insert_eq.
      * intros k Hk. by apply lookup_insert_ne.
  - unfold mbind, M_bind.
    destruct (get_translation_obj self lang field w) as [[r w1]|e] eqn:Hobj;
      [|done].
    apply get_translation_obj_inv in Hobj as (Hcache & _).
    intros [= <- <-]. simpl. rewrite Hcache. split.
    + apply lookup_insert_eq.
    + intros k Hk. by apply lookup_insert_ne.
Qed.

Lemma get_translation_leaves_value_cached_witness :
  cache (mkWorld [mkTranslation 1 7 1 "fr" "title" None]
           {["Book:1:fr:title" := PStr "Hello"]}
           [QGetOrCreate 7 1 "fr" "title"])
    !! _get_translation_cache_key (book (PStr "Hello")) "fr" "title"
    = Some (PStr "Hello") ∧
  ∀ k, k ≠ _get_translation_cache_key (book (PStr "Hello")) "fr" "title" →
       cache (mkWorld [mkTranslation 1 7 1 "fr" "title" None]
                {["Book:1:fr:title" := PStr "Hello"]}
                [QGetOrCreate 7 1 "fr" "title"]) !! k
       = cache empty_world !! k.
Proof.
  apply (get_translation_leaves_value_cached (book (PStr "Hello")) "fr" "title"
           empty_world).
  vm_compute. reflexivity.
Defined.

(** X3: the one error of the read path.  [get_translation] raises
    [MultipleObjectsReturned] exactly when the cache has no truthy value
    for the key and the table holds two or more rows for it; a truthy
    cached value hides a broken table. *)
Theorem get_translation_raises_iff
    (self : Entity) (lang field : string) (w : World) :
  get_translation self lang field w = Raise MultipleObjectsReturned ↔
  truthy (default (PStr EmptyString)
            (cache w !! _get_translation_cache_key self lang field)) = false ∧
  2 ≤ length (stored self lang field w).
Proof.
  rewrite <-get_translation_obj_raises_iff.
  unfold get_translation, cache_get, mbind at 1, M_bind at 1.
  replace (match cache w !! _get_translation_cache_key self lang field with
           | Some v => v | None => PStr EmptyString end)
    with (default (PStr EmptyString)
            (cache w !! _get_translation_cache_key self lang field))
    by (by destruct (cache w !! _)).
  destruct (truthy _) eqn:Htruthy; simpl.
  - split; [done|]. by intros [? _].
  - unfold mbind, M_bind.
    destruct (get_translation_obj self lang field w) as [[r w1]|[]];
      split; try done. by intros [_ ?].
Qed.

(** ** More on the write path *)

Lemma lookup_key_unique_key ct oid l f r1 r2 :
  unique_key r1 = unique_key r2 →
  lookup_key ct oid l f r1 = lookup_key ct oid l f r2.
Proof. unfold lookup_key. by intros ->. Qed.

Lemma select_fmap_same_key ct oid l f (g : Translation → Translation) rs :
  Forall (λ r0, unique_key (g r0) = unique_key r0) rs →
  select (lookup_key ct oid l f) (g <$> rs)
  = g <$> select (lookup_key ct oid l f) rs.
Proof.
  unfold select. induction 1 as [|r0 rs Hr0 _ IH]; [done|].
  rewrite fmap_cons. cbn [List.filter].
  rewrite (lookup_key_unique_key _ _ _ _ _ _ Hr0), IH.
  by destruct (lookup_key ct oid l f r0).
Qed.

(** The UPDATE of [save], row by row. *)
Lemma select_update_or_insert obj r rs ct oid l f :
  pk_unique rs → r ∈ rs →
  tr_pk obj = tr_pk r → unique_key obj = unique_key r →
  select (lookup_key ct oid l f) (update_or_insert obj rs)
  = (λ r0, if (tr_pk r0 =? tr_pk obj)%nat then obj else r0)
      <$> select (lookup_key ct oid l f) rs.
Proof.
  intros Hpk Hr Hobj Hkey. unfold update_or_insert.
  assert (existsb (λ r0, tr_pk r0 =? tr_pk obj) rs = true) as ->.
  { apply existsb_exists. exists r. split; [by apply list_elem_of_In|].
    by apply Nat.eqb_eq. }
  apply select_fmap_same_key, Forall_forall. intros r0 Hr0.
  destruct (Nat.eqb_spec (tr_pk r0) (tr_pk obj)) as [Heq|]; [|done].
  rewrite Hkey. f_equal. symmetry.
  apply (pk_unique_inj rs); [done..|congruence].
Qed.

(** Everything [set_translation] does on a well-formed table. *)
Lemma set_translation_effect self lang field text w :
  table_ok (rows w) →
  ∃ obj w1,
    set_translation self lang field text w = Ok (obj, w1) ∧
    table_ok (rows w1) ∧ keeps_rows w w1 ∧
    tr_translation obj = Some text ∧
    unique_key obj = (content_type_id self, id self, lang, field) ∧
    stored self lang field w1 = [obj] ∧
    cache w1
      = <[_get_translation_cache_key self lang field := PStr text]> (cache w) ∧
    (∀ ct oid l f,
       (ct, oid, l, f) ≠ (content_type_id self, id self, lang, field) →
       select (lookup_key ct oid l f) (rows w1)
       = select (lookup_key ct oid l f) (rows w)).
Proof.
  intros Hok.
  destruct (get_translation_obj_table_ok self lang field w Hok)
    as (r & w0 & Hget & [Hu0 Hpk0] & Hcache0 & Hr & Hkey).
  destruct (get_translation_obj_settles self lang field w (proj1 Hok))
    as (r' & w0' & Hget' & _ & _ & Hst0 & _).
  rewrite Hget in Hget'. injection Hget' as <- <-.
  pose proof (get_translation_obj_inv _ _ _ _ _ _ Hget) as (_ & _ & Hrows).
  set (obj := mkTranslation (tr_pk r) (tr_content_type r) (tr_object_id r)
                (tr_lang r) (tr_field r) (Some text)).
  assert (unique_key obj = unique_key r) as Hobj_key by done.
  destruct (update_or_insert_columns obj r (rows w0))
    as [Hkeys Hpks]; [done..|].
  exists obj,
    (mkWorld (update_or_insert obj (rows w0))
       (<[_get_translation_cache_key self lang field := PStr text]> (cache w0))
       (queries w0 ++ [QSave (tr_pk obj)])).
  split_and!.
  - unfold set_translation, mbind, M_bind. by rewrite Hget.
  - split; [by apply (unique_together_keys (rows w0))|].
    unfold pk_unique. cbn [rows]. by rewrite Hpks.
  - unfold keeps_rows. cbn [rows]. rewrite Hkeys, Hpks.
    destruct Hrows as [(_ & _ & ->)|[_ ->]]; [|done].
    rewrite !fmap_app. split; by apply prefix_app_r.
  - done.
  - by rewrite Hobj_key.
  - unfold stored in *. cbn [rows].
    rewrite (select_update_or_insert obj r); [|done..].
    rewrite Hst0. simpl. by rewrite Nat.eqb_refl.
  - cbn [cache]. by rewrite Hcache0.
  - intros ct oid l f Hne. cbn [rows].
    rewrite (select_update_or_insert obj r); [|done..].
    assert (select (lookup_key ct oid l f) (rows w0)
            = select (lookup_key ct oid l f) (rows w)) as ->.
    { destruct Hrows as [(_ & _ & ->)|[_ ->]]; [|done].
      rewrite select_app. unfold select at 2; simpl.
      destruct (lookup_key ct oid l f r) eqn:Hk; [|by rewrite app_nil_r].
      apply lookup_key_true in Hk. congruence. }
    rewrite <-(list_fmap_id (select _ (rows w))) at 2.
    apply list_fmap_ext. intros i r0 Hi.
    destruct (Nat.eqb_spec (tr_pk r0) (tr_pk obj)) as [Heq|]; [|done].
    apply list_elem_of_lookup_2, elem_of_select in Hi as [Hr0 Hk].
    apply lookup_key_true in Hk. destruct Hne.
    assert (r0 = r) as ->; [|congruence].
    apply (pk_unique_inj (rows w0)); [done| |done|done].
    destruct Hrows as [(_ & _ & ->)|[_ ->]]; [|done].
    apply elem_of_app. by left.
Qed.

(** X4: round trip through the table.  On a well-formed table,
    [set_translation] returns a record with exactly the given text (empty
    text included), and a following [get_translation_obj] for the same
    language and field returns that very record and inserts nothing. *)
Theorem set_translation_round_trip
    (self : Entity) (lang field text : string) (w : World) :
  table_ok (rows w) →
  ∃ obj w1 w2,
    set_translation self lang field text w = Ok (obj, w1) ∧
    get_translation_obj self lang field w1 = Ok (obj, w2) ∧
    tr_translation obj = Some text ∧
    unique_key obj = (content_type_id self, id self, lang, field) ∧
    rows w2 = rows w1.
Proof.
  intros Hok.
  destruct (set_translation_effect self lang field text w Hok)
    as (obj & w1 & Hset & _ & _ & Htext & Hkey & Hst & _).
  exists obj, w1, (issue (QGetOrCreate (content_type_id self) (id self)
                            lang field) w1).
  split_and!; [done| |done..].
  by apply get_translation_obj_found.
Qed.

Lemma set_translation_round_trip_witness :
  ∃ obj w1 w2,
    set_translation (book (PStr "Hello")) "fr" "title" "Bonjour" empty_world
      = Ok (obj, w1) ∧
    get_translation_obj (book (PStr "Hello")) "fr" "title" w1 = Ok (obj, w2) ∧
    tr_translation obj = Some "Bonjour" ∧
    unique_key obj = (7, 1%Z, "fr", "title") ∧
    rows w2 = rows w1.
Proof.
  apply (set_translation_round_trip (book (PStr "Hello")) "fr" "title"
           "Bonjour" empty_world).
  split; [intros ct oid l f; simpl; lia|constructor].
Defined.



(** X6: setting the empty text takes the translation back.  After
    [set_translation(lang, field, '')] on a well-formed table, the next
    [get_translation] misses the cache (the cached empty string is falsy),
    finds the row without text and returns the instance's own attribute
    (or the empty string when there is none). *)
Theorem set_empty_text_restores_fallback
    (self : Entity) (lang field : string) (w : World) :
  table_ok (rows w) →
  ∃ obj w1 w2,
    set_translation self lang field EmptyString w = Ok (obj, w1) ∧
    get_translation self lang field w1
      = Ok (getattr self field (PStr EmptyString), w2) ∧
    rows w2 = rows w1.
Proof.
  intros Hok.
  destruct (set_translation_effect self lang field EmptyString w Hok)
    as (obj & w1 & Hset & _ & _ & Htext & _ & Hst & Hcache & _).
  destruct (get_translation_miss self lang field w1) as (rs' & Hget & Hrs').
  { rewrite Hcache, lookup_insert_eq. done. }
  { unfold no_stored_text, untranslated. by rewrite Hst, Htext. }
  eexists obj, w1, _. split_and!; [done|exact Hget|].
  destruct Hrs' as [->| ->]; [done|].
  (* the row exists, so the read cannot have inserted one *)
  exfalso. revert Hget. unfold get_translation, cache_get, mbind, M_bind.
  rewrite Hcache, lookup_insert_eq. simpl.
  rewrite (get_translation_obj_found _ _ _ _ _ Hst). simpl.
  intros [= _ Hrows]. apply (f_equal length) in Hrows.
  rewrite length_app in Hrows. simpl in Hrows. lia.
Qed.

Lemma set_empty_text_restores_fallback_witness :
  ∃ obj w1 w2,
    set_translation (book (PStr "Hello")) "fr" "title" EmptyString
      (mkWorld [mkTranslation 1 7 1 "fr" "title" (Some "Bonjour")]
         {["Book:1:fr:title" := PStr "Bonjour"]} [])
      = Ok (obj, w1) ∧
    get_translation (book (PStr "Hello")) "fr" "title" w1
      = Ok (getattr (book (PStr "Hello")) "title" (PStr EmptyString), w2) ∧
    rows w2 = rows w1.
Proof.
  apply (set_empty_text_restores_fallback (book (PStr "Hello")) "fr" "title").
  split.
  - intros ct oid l f. unfold select; simpl.
    destruct (lookup_key ct oid l f _); simpl; lia.
  - apply NoDup_singleton.
Defined.

(** X7: the cache key carries the class name, not the content type.  Two
    instances whose classes share [object_name] and whose ids are equal
    share their cache entries even when their content types differ: after
    [set_translation] with a non-empty text on one, [get_translation] on
    the other returns that text from the cache, without a store call. *)
Theorem cache_shared_by_class_name
    (e1 e2 : Entity) (lang field text : string) (w : World) :
  object_name e1 = object_name e2 → id e1 = id e2 →
  text ≠ EmptyString →
  length (stored e1 lang field w) ≤ 1 →
  ∃ obj w1,
    set_translation e1 lang field text w = Ok (obj, w1) ∧
    get_translation e2 lang field w1 = Ok (PStr text, w1).
Proof.
  intros Hname Hid Htext Hlen.
  destruct (set_translation_returns e1 lang field text w Hlen)
    as (obj & w1 & Hset & Hcache & _).
  exists obj, w1. split; [done|].
  apply get_translation_hit.
  - rewrite Hcache. unfold _get_translation_cache_key.
    rewrite Hname, Hid. apply lookup_insert_eq.
  - simpl. by destruct (String.eqb_spec text EmptyString).
Qed.

Lemma cache_shared_by_class_name_witness :
  ∃ obj w1,
    set_translation (book (PStr "Hello")) "fr" "title" "Bonjour" empty_world
      = Ok (obj, w1) ∧
    get_translation library_book "fr" "title" w1 = Ok (PStr "Bonjour", w1).
Proof.
  apply (cache_shared_by_class_name (book (PStr "Hello")) library_book
           "fr" "title" "Bonjour" empty_world);
    [reflexivity|reflexivity|discriminate|simpl; lia].
Defined.

(** ** What the operations never do *)

Lemma extends_blank_refl w : extends_blank w w.
Proof. exists []. by rewrite app_nil_r. Qed.

Lemma extends_blank_trans w1 w2 w3 :
  extends_blank w1 w2 → extends_blank w2 w3 → extends_blank w1 w3.
Proof.
  intros (new1 & Hr1 & Hn1) (new2 & Hr2 & Hn2). exists (new1 ++ new2).
  rewrite Hr2, Hr1, <-app_assoc. split; [done|]. by apply Forall_app.
Qed.

Lemma extends_blank_keeps_rows w w' : extends_blank w w' → keeps_rows w w'.
Proof.
  intros (new & Hr & _). unfold keeps_rows. rewrite Hr, !fmap_app.
  split; by apply prefix_app_r.
Qed.

Lemma keeps_rows_trans w1 w2 w3 :
  keeps_rows w1 w2 → keeps_rows w2 w3 → keeps_rows w1 w3.
Proof. intros [??] [??]. split; by etrans. Qed.

(** A relation between the worlds before and after each turn relates the
    worlds before and after the loop. *)
Lemma for_each_relates {A B : Type} (R : World → World → Prop)
    (P : A → Prop) (body : A → B → M B) (xs : list A) :
  (∀ w, R w w) → (∀ w1 w2 w3, R w1 w2 → R w2 w3 → R w1 w3) →
  (∀ x acc w acc' w', P x → body x acc w = Ok (acc', w') → R w w') →
  Forall P xs →
  ∀ acc w acc' w', for_each xs body acc w = Ok (acc', w') → R w w'.
Proof.
  intros Hrefl Htrans Hbody Hxs.
  induction Hxs as [|x xs Hx _ IH]; intros acc w acc' w'; simpl.
  - intros [= _ <-]. apply Hrefl.
  - unfold mbind, M_bind.
    destruct (body x acc w) as [[acc1 w1]|e] eqn:Hx1; [|done].
    intros Hrest. eapply Htrans; [by eapply Hbody|by eapply IH].
Qed.

Lemma get_translation_obj_extends self lang field w r w' :
  get_translation_obj self lang field w = Ok (r, w') → extends_blank w w'.
Proof.
  intros (_ & _ & [(_ & Hr & Hrows)|[_ Hrows]])%get_translation_obj_inv.
  - exists [r]. split; [done|]. apply Forall_singleton. by rewrite Hr.
  - exists []. by rewrite app_nil_r.
Qed.

Lemma translate_extends LANGUAGES self w ts w' :
  translate LANGUAGES self w = Ok (ts, w') → extends_blank w w'.
Proof.
  rewrite translate_visits.
  apply (for_each_relates extends_blank (λ _, True));
    [apply extends_blank_refl|apply extends_blank_trans| |by apply Forall_true].
  intros [l f] acc w0 acc' w1 _. unfold visit, mbind, M_bind. simpl.
  destruct (get_translation_obj self l f w0) as [[r w2]|e] eqn:Hobj; [|done].
  intros [= _ <-]. by eapply get_translation_obj_extends.
Qed.

Lemma get_translation_extends self lang field w v w' :
  get_translation self lang field w = Ok (v, w') → extends_blank w w'.
Proof.
  unfold get_translation, cache_get, mbind at 1, M_bind at 1.
  destruct (negb (truthy _)).
  - unfold mbind, M_bind.
    destruct (get_translation_obj self lang field w) as [[r w1]|e] eqn:Hobj;
      [|done].
    intros [= _ <-]. destruct (get_translation_obj_extends _ _ _ _ _ _ Hobj)
      as (new & ? & ?). by exists new.
  - intros [= _ <-]. apply extends_blank_refl.
Qed.

Lemma run_op_extends op w w' :
  writes_text op = false → run_op op w = Ok (tt, w') → extends_blank w w'.
Proof.
  destruct op as [L e|e l|e l f|e l f|e l f t]; simpl; [| | | |done];
    intros _; unfold mbind, M_bind.
  - destruct (translate L e w) as [[ts w1]|err] eqn:Hop; [|done].
    intros [= <-]. by eapply translate_extends.
  - intros [= <-]. exists []. by rewrite app_nil_r.
  - destruct (get_translation_obj e l f w) as [[r w1]|err] eqn:Hop; [|done].
    intros [= <-]. by eapply get_translation_obj_extends.
  - destruct (get_translation e l f w) as [[v w1]|err] eqn:Hop; [|done].
    intros [= <-]. by eapply get_translation_extends.
Qed.

(** X8: only [set_translation] writes text.  Whatever sequence of
    [translate], [translations], [get_translation_obj] and
    [get_translation] calls returns, the rows that were in the table are
    all still there, in place and unchanged (text included), and every row
    added after them has NULL text. *)
Theorem reads_never_write_text (ops : list Op) (w w' : World) :
  forallb (λ op, negb (writes_text op)) ops = true →
  run ops w = Ok (tt, w') →
  ∃ new, rows w' = rows w ++ new ∧
         Forall (λ r, tr_translation r = None) new.
Proof.
  intros Hreads Hrun.
  apply (for_each_relates extends_blank (λ op, writes_text op = false)
           (λ op _, run_op op) ops) with (acc := tt) (acc' := tt);
    [apply extends_blank_refl|apply extends_blank_trans| | |done].
  - intros op [] w0 [] w1 Hop Hrun_op. by eapply run_op_extends.
  - apply Forall_forall. intros op Hop.
    rewrite forallb_forall in Hreads.
    apply list_elem_of_In, Hreads in Hop. by apply negb_true_iff.
Qed.

Lemma reads_never_write_text_witness :
  ∃ new,
    rows (mkWorld [mkTranslation 1 7 1 "fr" "title" (Some "Bonjour");
                   mkTranslation 2 7 1 "de" "title" None]
            {["Book:1:de:title" := PStr "Hello"]}
            [QGetOrCreate 7 1 "fr" "title"; QGetOrCreate 7 1 "de" "title"])
    = rows (mkWorld [mkTranslation 1 7 1 "fr" "title" (Some "Bonjour")]
              ∅ []) ++ new ∧
    Forall (λ r, tr_translation r = None) new.
Proof.
  apply (reads_never_write_text
           [OpGetTranslationObj (book (PStr "Hello")) "fr" "title";
            OpGetTranslation (book (PStr "Hello")) "de" "title"]);
    [reflexivity|vm_compute; reflexivity].
Defined.

(** X9: no row is ever lost or re-keyed.  From a well-formed table, any
    sequence of the five operations of the mixin returns, and the key
    columns and the primary keys of the rows that were there are a prefix
    of those of the final table: rows are only ever appended,
    [set_translation] included. *)
Theorem rows_only_appended (ops : list Op) (w : World) :
  table_ok (rows w) →
  ∃ w', run ops w = Ok (tt, w') ∧
        unique_key <$> rows w `prefix_of` unique_key <$> rows w' ∧
        tr_pk <$> rows w `prefix_of` tr_pk <$> rows w'.
Proof.
  intros Hok.
  destruct (for_each_invariant (λ w', table_ok (rows w') ∧ keeps_rows w w')
              ops (λ op _, run_op op)) with (acc := tt) (w := w)
    as ([] & w' & Hrun & _ & Hkeeps); [|done|by exists w'].
  intros op [] w0 [Hok0 Hkeeps0].
  assert (∃ w1, run_op op w0 = Ok (tt, w1) ∧ table_ok (rows w1) ∧
                keeps_rows w0 w1) as (w1 & Hop & Hok1 & Hkeeps1).
  { destruct (writes_text op) eqn:Hwrites.
    - destruct op as [| | | |e l f t]; try done. simpl.
      destruct (set_translation_effect e l f t w0 Hok0)
        as (obj & w1 & Hset & Hok1 & Hkeeps1 & _).
      exists w1. unfold mbind, M_bind. by rewrite Hset.
    - destruct (run_op_table_ok op w0 Hok0) as (w1 & Hop & Hok1).
      exists w1. split_and!; [done..|].
      by eapply extends_blank_keeps_rows, run_op_extends. }
  exists tt, w1. split_and!; [done..|]. by eapply keeps_rows_trans.
Qed.

Lemma rows_only_appended_witness :
  ∃ w', run [OpSetTranslation (book (PStr "Hello")) "fr" "title" "Bonjour";
             OpTranslate [("en", "English"); ("fr", "French")]
               (book (PStr "Hello"));
             OpSetTranslation (book (PStr "Hello")) "fr" "title" "Salut"]
          (mkWorld [mkTranslation 5 8 1 "fr" "title" (Some "Tract")] ∅ [])
          = Ok (tt, w') ∧
        unique_key <$> [mkTranslation 5 8 1 "fr" "title" (Some "Tract")]
          `prefix_of` unique_key <$> rows w' ∧
        tr_pk <$> [mkTranslation 5 8 1 "fr" "title" (Some "Tract")]
          `prefix_of` tr_pk <$> rows w'.
Proof.
  apply (rows_only_appended _
           (mkWorld [mkTranslation 5 8 1 "fr" "title" (Some "Tract")] ∅ [])).
  split.
  - intros ct oid l f. unfold select; simpl.
    destruct (lookup_key ct oid l f _); simpl; lia.
  - apply NoDup_singleton.
Defined.

(** ** More on [translate] and [get_translation_obj] *)

Lemma translate_keys_length LANGUAGES self :
  length (translate_keys LANGUAGES self)
  = length LANGUAGES * length (translatable_fields self).
Proof.
  unfold translate_keys. induction LANGUAGES as [|lang L IH]; [done|].
  cbn [mbind list_bind]. rewrite length_app, length_fmap, IH. simpl. lia.
Qed.

Lemma translate_keys_elem LANGUAGES self lang field :
  lang ∈ LANGUAGES → field ∈ translatable_fields self →
  (lang.1, field) ∈ translate_keys LANGUAGES self.
Proof.
  intros Hlang Hfield. unfold translate_keys.
  apply list_elem_of_bind. exists lang. split; [|done].
  by apply (list_elem_of_fmap_2 (λ f, (lang.1, f))).
Qed.

Lemma settled_rows self w ks ts :
  Forall2 (λ k r, stored self k.1 k.2 w = [r]) ks ts →
  unique_key <$> ts
    = (λ k, (content_type_id self, id self, k.1, k.2)) <$> ks ∧
  Forall (λ r, r ∈ rows w) ts.
Proof.
  induction 1 as [|[l f] r ks ts Hr _ [IHkeys IHrows]]; [done|].
  apply stored_elem in Hr as [Hin Hkey].
  rewrite !fmap_cons, IHkeys, Hkey. split; [done|]. by constructor.
Qed.

(** X10: what [translate] returns.  On a table with the unique constraint
    the result has one record per (language, field) pair, languages outer
    and fields inner in configuration order, each carrying the key columns
    of its pair, and each present in the table afterwards; its length is
    the number of languages times the number of translatable fields. *)
Theorem translate_returns_in_order
    (LANGUAGES : list (string * string)) (self : Entity) (w : World) :
  unique_together (rows w) →
  ∃ ts w1,
    translate LANGUAGES self w = Ok (ts, w1) ∧
    unique_key <$> ts = translate_unique_keys LANGUAGES self ∧
    length ts = length LANGUAGES * length (translatable_fields self) ∧
    Forall (λ r, r ∈ rows w1) ts.
Proof.
  intros Hu. rewrite translate_visits.
  destruct (visit_all_settles self (translate_keys LANGUAGES self) [] w Hu)
    as (ts & w1 & Hrun & _ & Hall & _).
  destruct (settled_rows self w1 _ _ Hall) as [Hkeys Hrows].
  exists ts, w1. split_and!; [done..| |done].
  by rewrite <-(Forall2_length _ _ _ Hall), translate_keys_length.
Qed.

Lemma translate_returns_in_order_witness :
  ∃ ts w1,
    translate [("en", "English"); ("fr", "French")] (book (PStr "Hello"))
      empty_world = Ok (ts, w1) ∧
    unique_key <$> ts
      = translate_unique_keys [("en", "English"); ("fr", "French")]
          (book (PStr "Hello")) ∧
    length ts = length [("en", "English"); ("fr", "French")]
                * length (translatable_fields (book (PStr "Hello"))) ∧
    Forall (λ r, r ∈ rows w1) ts.
Proof.
  apply (translate_returns_in_order _ (book (PStr "Hello")) empty_world).
  intros ct oid l f; simpl; lia.
Defined.

(** X11: a model that declares no translatable fields (the default of the
    mixin) gets nothing from [translate]: the result is empty, no row is
    inserted and no store call is issued, whatever the languages. *)
Theorem translate_without_fields
    (LANGUAGES : list (string * string)) (self : Entity) (w : World) :
  translatable_fields self = [] →
  translate LANGUAGES self w = Ok ([], w).
Proof.
  intros Hfields. rewrite translate_visits.
  assert (translate_keys LANGUAGES self = []) as ->; [|done].
  unfold translate_keys. rewrite Hfields.
  induction LANGUAGES as [|lang L IH]; [done|].
  cbn [mbind list_bind]. by rewrite IH.
Qed.

Lemma translate_without_fields_witness :
  translate [("en", "English"); ("fr", "French")]
    (mkEntity "Page" 4 2 ∅ []) empty_world = Ok ([], empty_world).
Proof.
  apply (translate_without_fields _ (mkEntity "Page" 4 2 ∅ []) empty_world).
  reflexivity.
Defined.

(** X12: [get_translation_obj] creates lazily and once.  When it returns,
    a second call with the same language and field returns the same record
    and inserts nothing; and if no row existed before the first call, the
    record it returned is a new last row with NULL text. *)
Theorem get_translation_obj_idempotent
    (self : Entity) (lang field : string) (w w1 : World) (r : Translation) :
  get_translation_obj self lang field w = Ok (r, w1) →
  (∃ w2, get_translation_obj self lang field w1 = Ok (r, w2) ∧
         rows w2 = rows w1) ∧
  (stored self lang field w = [] →
   tr_translation r = None ∧ rows w1 = rows w ++ [r]).
Proof.
  intros Hget.
  pose proof (get_translation_obj_inv _ _ _ _ _ _ Hget)
    as (_ & _ & [(Hst & Hr & Hrows)|[Hst Hrows]]).
  - split; [|by rewrite Hr at 1].
    eexists. split; [apply get_translation_obj_found|done].
    unfold stored in *. rewrite Hrows, select_app, Hst.
    unfold select; simpl. rewrite Hr at 1.
    by rewrite (proj2 (lookup_key_true _ _ _ _ _)).
  - split; [|by rewrite Hst].
    eexists. split; [apply get_translation_obj_found|done].
    unfold stored in *. by rewrite Hrows.
Qed.

Lemma get_translation_obj_idempotent_witness :
  (∃ w2, get_translation_obj (book (PStr "Hello")) "fr" "title"
           (mkWorld [mkTranslation 1 7 1 "fr" "title" None] ∅
              [QGetOrCreate 7 1 "fr" "title"])
         = Ok (mkTranslation 1 7 1 "fr" "title" None, w2) ∧
         rows w2 = [mkTranslation 1 7 1 "fr" "title" None]) ∧
  (stored (book (PStr "Hello")) "fr" "title" empty_world = [] →
   tr_translation (mkTranslation 1 7 1 "fr" "title" None) = None ∧
   [mkTranslation 1 7 1 "fr" "title" None]
   = rows empty_world ++ [mkTranslation 1 7 1 "fr" "title" None]).
Proof.
  apply (get_translation_obj_idempotent (book (PStr "Hello")) "fr" "title"
           empty_world
           (mkWorld [mkTranslation 1 7 1 "fr" "title" None] ∅
              [QGetOrCreate 7 1 "fr" "title"])).
  reflexivity.
Defined.

(** ** More on [translations] *)

Lemma translations_elem self lang w r :
  r ∈ merge_sort ordering
        (select (lookup_lang (content_type_id self) (id self) lang) (rows w)) ↔
  r ∈ rows w ∧ tr_object_id r = id self ∧
  tr_content_type r = content_type_id self ∧ tr_lang r = lang.
Proof.
  by rewrite merge_sort_Permutation, elem_of_select, lookup_lang_true.
Qed.

(** X13: [translate] then [translations].  After [translate] on a table
    with the unique constraint, the listing of any configured language
    holds a record for every translatable field of the instance. *)
Theorem translations_after_translate
    (LANGUAGES : list (string * string)) (self : Entity)
    (lang : string * string) (field : string) (w : World) :
  unique_together (rows w) →
  lang ∈ LANGUAGES → field ∈ translatable_fields self →
  ∃ ts w1 rs w2,
    translate LANGUAGES self w = Ok (ts, w1) ∧
    translations self lang.1 w1 = Ok (rs, w2) ∧
    field ∈ tr_field <$> rs.
Proof.
  intros Hu Hlang Hfield. rewrite translate_visits.
  destruct (visit_all_settles self (translate_keys LANGUAGES self) [] w Hu)
    as (ts & w1 & Hrun & _ & Hall & _).
  exists ts, w1. eexists _, _. split_and!; [done|reflexivity|].
  pose proof (translate_keys_elem LANGUAGES self lang field Hlang Hfield)
    as [i Hi]%list_elem_of_lookup_1.
  destruct (Forall2_lookup_l _ _ _ _ _ Hall Hi) as (r & _ & Hr).
  apply stored_elem in Hr as [Hin Hkey]. simpl in Hkey.
  unfold unique_key in Hkey. injection Hkey as Hct Hoid Hl Hf.
  apply list_elem_of_fmap. exists r. split; [done|].
  by apply translations_elem.
Qed.

Lemma translations_after_translate_witness :
  ∃ ts w1 rs w2,
    translate [("en", "English"); ("fr", "French")] (book (PStr "Hello"))
      empty_world = Ok (ts, w1) ∧
    translations (book (PStr "Hello")) ("fr", "French").1 w1 = Ok (rs, w2) ∧
    "body" ∈ tr_field <$> rs.
Proof.
  apply (translations_after_translate [("en", "English"); ("fr", "French")]
           (book (PStr "Hello")) ("fr", "French") "body" empty_world).
  - intros ct oid l f; simpl; lia.
  - apply elem_of_cons. right. apply elem_of_cons. by left.
  - apply elem_of_cons. right. apply elem_of_cons. by left.
Defined.





(** ** Cache keys of one object *)

(** X15: for one object the class name plays no part.  Whatever characters
    [object_name] holds, two cache keys of the same instance are equal only
    for the same language and field, as long as the language codes are free
    of the separator [:]; in particular, for a fixed language, distinct
    fields never share a key. *)
Theorem cache_key_injective_per_object
    (self : Entity) (l1 f1 l2 f2 : string) :
  no_colon l1 = true → no_colon l2 = true →
  _get_translation_cache_key self l1 f1 = _get_translation_cache_key self l2 f2 →
  l1 = l2 ∧ f1 = f2.
Proof.
  unfold _get_translation_cache_key, format_key. intros Hl1 Hl2 Heq.
  apply (inj (String.app _)) in Heq. apply (inj (String.app _)) in Heq.
  apply (inj (String.app _)) in Heq. apply (inj (String.app _)) in Heq.
  by apply split_at_colon in Heq.
Qed.

Lemma cache_key_injective_per_object_witness :
  "pt-br" = "pt-br" ∧ "a:b" = "a:b".
Proof.
  apply (cache_key_injective_per_object (mkEntity "app:Book" 7 1 ∅ [])
           "pt-br" "a:b" "pt-br" "a:b"); reflexivity.
Defined.

(** ** The admin link *)

Section admin_link.

Lemma append_assoc (s1 s2 s3 : string) :
  (s1 +:+ s2) +:+ s3 = s1 +:+ (s2 +:+ s3).
Proof.
  induction s1 as [|c s1 IH]; [done|].
  change (String c ((s1 +:+ s2) +:+ s3) = String c (s1 +:+ (s2 +:+ s3))).
  by rewrite IH.
Qed.

Lemma split_at_char c a a' b b' :
  lacks c a = true → lacks c a' = true →
  a +:+ String c b = a' +:+ String c b' → a = a' ∧ b = b'.
Proof.
  revert a'. induction a as [|x a IH]; intros [|x' a']; simpl.
  - by intros _ _ [= ->].
  - intros _ Hx' [= <- _]. by rewrite Ascii.eqb_refl in Hx'.
  - intros Hx _ [= -> _]. by rewrite Ascii.eqb_refl in Hx.
  - intros [_ Ha]%andb_prop [_ Ha']%andb_prop [= -> Heq].
    destruct (IH a' Ha Ha' Heq) as [-> ->]. done.
Qed.

Lemma pretty_N_go_lacks c x s :
  (∀ d, Ascii.eqb (pretty_N_char d) c = false) →
  lacks c s = true → lacks c (pretty_N_go x s) = true.
Proof.
  intros Hc. revert s. induction (N.lt_wf_0 x) as [x _ IH]; intros s Hs.
  assert (x = 0 ∨ 0 < x)%N as [->|Hpos] by lia.
  - by rewrite pretty_N_go_0.
  - rewrite pretty_N_go_step by done. apply IH.
    + by apply N.div_lt.
    + simpl. by rewrite Hc, Hs.
Qed.

Lemma pretty_N_lacks c (x : N) :
  (∀ d, Ascii.eqb (pretty_N_char d) c = false) →
  lacks c (pretty x) = true.
Proof.
  intros Hc. unfold pretty, pretty_N. case_decide.
  - simpl. specialize (Hc 0%N). simpl in Hc. by rewrite Hc.
  - by apply pretty_N_go_lacks.
Qed.

Lemma pretty_Z_lacks c (z : Z) :
  (∀ d, Ascii.eqb (pretty_N_char d) c = false) →
  Ascii.eqb "-"%char c = false →
  lacks c (pretty z) = true.
Proof.
  intros Hc Hminus. destruct z as [|p|p]; unfold pretty, pretty_Z.
  - simpl. specialize (Hc 0%N). simpl in Hc. by rewrite Hc.
  - by apply pretty_N_lacks.
  - change ("-" +:+ pretty p) with (String "-"%char (pretty p)).
    cbn [lacks]. rewrite Hminus. by apply pretty_N_lacks.
Qed.

Lemma digit_not_amp d : Ascii.eqb (pretty_N_char d) "&"%char = false.
Proof. unfold pretty_N_char. by repeat case_match. Qed.

Lemma digit_not_dquote d :
  Ascii.eqb (pretty_N_char d) (ascii_of_nat 34) = false.
Proof. unfold pretty_N_char. by repeat case_match. Qed.

End admin_link.

(** X16: the admin link identifies the object.  With the same URL resolver
    and the same content type of [Translation], the links of two instances
    are equal only if the instances have the same content type id and the
    same id. *)
Theorem translations_link_injective
    (reverse : string → option string) (tt : ContentType)
    (e1 e2 : Entity) (a : string) :
  translations_link reverse tt e1 = Some a →
  translations_link reverse tt e2 = Some a →
  content_type_id e1 = content_type_id e2 ∧ id e1 = id e2.
Proof.
  unfold translations_link.
  destruct (reverse _) as [base|]; simpl; [|done].
  intros [= <-] [= Heq].
  apply (inj (String.app _)) in Heq.
  rewrite !append_assoc in Heq.
  apply (inj (String.app _)) in Heq. simpl in Heq.
  apply (inj (String.app "?content_type__id__exact=")) in Heq.
  apply split_at_char in Heq as [Hct Heq];
    [|apply (pretty_N_lacks _ _ digit_not_amp)..].
  apply (inj (String.app "object_id=")) in Heq.
  apply split_at_char in Heq as [Hid _];
    [|by apply (pretty_Z_lacks _ _ digit_not_dquote)..].
  split; [by apply (inj pretty) in Hct|by apply (inj pretty) in Hid].
Qed.

Lemma translations_link_injective_witness :
  content_type_id (book (PStr "Hello")) = content_type_id (book PNone) ∧
  id (book (PStr "Hello")) = id (book PNone).
Proof.
  apply (translations_link_injective admin_reverse translation_type
           (book (PStr "Hello")) (book PNone)
           ("<a href=" +:+ dquote
              +:+ "/admin/klingon/translation/?content_type__id__exact=7&object_id=1"
              +:+ dquote +:+ ">translate</a>"));
    reflexivity.
Defined.

(** ** The shape of every answer *)

(** X17: whenever [get_translation] returns, its value is either truthy (a
    cached value or the stored text) or the instance's own attribute as
    [getattr(self, field, '')] gives it; and the call has issued at most
    one store call, a [get_or_create], never a [save] or a [filter]. *)
Theorem get_translation_answer
    (self : Entity) (lang field : string) (w w' : World) (v : PyVal) :
  get_translation self lang field w = Ok (v, w') →
  (truthy v = true ∨ v = getattr self field (PStr EmptyString)) ∧
  (queries w' = queries w ∨
   queries w'
     = queries w ++ [QGetOrCreate (content_type_id self) (id self) lang field]).
Proof.
  unfold get_translation, cache_get, mbind at 1, M_bind at 1.
  destruct (truthy (match cache w !! _ with
                    | Some c => c | None => PStr EmptyString end))
    eqn:Hc; simpl.
  - intros [= <- <-]. split; by left.
  - unfold mbind, M_bind.
    destruct (get_translation_obj self lang field w) as [[r w1]|e] eqn:Hobj;
      [|done].
    apply get_translation_obj_inv in Hobj as (_ & Hq & _).
    intros [= <- <-]. simpl. split; [|by right].
    destruct (truthy (getattr_translation r)) eqn:Hr; simpl; [by left|by right].
Qed.

Lemma get_translation_answer_witness :
  (truthy (PStr "Hello") = true ∨
   PStr "Hello" = getattr (book (PStr "Hello")) "title" (PStr EmptyString)) ∧
  (queries (mkWorld [mkTranslation 1 7 1 "fr" "title" None]
              {["Book:1:fr:title" := PStr "Hello"]}
              [QGetOrCreate 7 1 "fr" "title"])
   = queries empty_world ∨
   queries (mkWorld [mkTranslation 1 7 1 "fr" "title" None]
              {["Book:1:fr:title" := PStr "Hello"]}
              [QGetOrCreate 7 1 "fr" "title"])
   = queries empty_world ++ [QGetOrCreate 7 1 "fr" "title"]).
Proof.
  apply (get_translation_answer (book (PStr "Hello")) "fr" "title"
           empty_world).
  vm_compute. reflexivity.
Defined.

(** ** Reading back through the table *)

(** X18: the text survives the cache.  After [set_translation] with a
    non-empty text on a well-formed table, a [get_translation] that finds
    no truthy value in the cache for the key (the entry was evicted, or the
    cache was flushed) still returns the text, read from the row. *)
Theorem set_then_get_cold_cache
    (self : Entity) (lang field text : string) (w : World) :
  table_ok (rows w) → text ≠ EmptyString →
  ∃ obj w1,
    set_translation self lang field text w = Ok (obj, w1) ∧
    ∀ (c : gmap string PyVal) (qs : list Query),
      truthy (default (PStr EmptyString)
                (c !! _get_translation_cache_key self lang field)) = false →
      ∃ w2, get_translation self lang field (mkWorld (rows w1) c qs)
            = Ok (PStr text, w2) ∧
            rows w2 = rows w1.
Proof.
  intros Hok Htext.
  destruct (set_translation_effect self lang field text w Hok)
    as (obj & w1 & Hset & _ & _ & Hobj & _ & Hst & _).
  exists obj, w1. split; [done|]. intros c qs Hc.
  unfold get_translation, cache_get, mbind at 1, M_bind at 1.
  cbn [cache].
  replace (match c !! _get_translation_cache_key self lang field with
           | Some v => v | None => PStr EmptyString end)
    with (default (PStr EmptyString)
            (c !! _get_translation_cache_key self lang field))
    by (by destruct (c !! _)).
  rewrite Hc. simpl. unfold mbind, M_bind.
  rewrite (get_translation_obj_found self lang field
             (mkWorld (rows w1) c qs) obj Hst).
  unfold getattr_translation. rewrite Hobj. simpl.
  destruct (String.eqb_spec text EmptyString) as [|_]; [done|].
  simpl. by eexists.
Qed.

Lemma set_then_get_cold_cache_witness :
  ∃ obj w1,
    set_translation (book (PStr "Hello")) "fr" "title" "Bonjour" empty_world
      = Ok (obj, w1) ∧
    ∀ (c : gmap string PyVal) (qs : list Query),
      truthy (default (PStr EmptyString)
                (c !! _get_translation_cache_key (book (PStr "Hello"))
                        "fr" "title")) = false →
      ∃ w2, get_translation (book (PStr "Hello")) "fr" "title"
              (mkWorld (rows w1) c qs)
            = Ok (PStr "Bonjour", w2) ∧
            rows w2 = rows w1.
Proof.
  apply (set_then_get_cold_cache (book (PStr "Hello")) "fr" "title" "Bonjour"
           empty_world); [|discriminate].
  split; [intros ct oid l f; simpl; lia|constructor].
Defined.
